(** * AES-GCM session layer of libdigest-hmac-sha256-cxx11

    A shallow embedding of [src/cipher-aes-gcm.cpp] (class [cipher::AES_GCM])
    and the properties of the session layer: counter derivation, keystream
    consumption, tag masking, tag comparison and the state machine.

    Bytes ([std::uint8_t], and [char] seen through its bit pattern) are
    integers in [0, 256); [std::string] is the list of its bytes and
    [AES::BLOCK] ([std::array<std::uint8_t,16>]) is a list of 16 bytes.
    The two collaborators of the class, the block cipher ([cipher::AES]) and
    the accumulator ([digest::GHASH]), are interfaces: every theorem about the
    session holds for all their implementations; a reference implementation
    (AES of FIPS-197, GHASH of SP 800-38D) is given to run the session on
    concrete messages. *)

From Stdlib Require Import ZArith List Lia Bool String.
From stdpp Require Import base numbers list.

Import ListNotations.

#[local] Open Scope nat_scope.

(** ** Data model *)

Abbreviation bytes := (list Z) (only parsing).
Abbreviation BLOCK := (list Z) (only parsing).

(** [AES::BLOCK::size ()], a compile-time constant. *)
Definition block_size : nat := 16.

(** The session states compared against in the source. *)
Inductive State := INIT | ENCRYPT | DECRYPT | FINAL.

#[global] Instance State_eq_dec : EqDecision State.
Proof. solve_decision. Defined.

(** A byte of an array or a string. *)
Definition is_byte (b : Z) : Prop := (0 <= b < 256)%Z.

(** The logical content of a block: sixteen bytes. *)
Definition is_block (b : BLOCK) : Prop := length b = block_size /\ Forall is_byte b.

#[global] Instance is_byte_dec (b : Z) : Decision (is_byte b).
Proof. unfold is_byte. apply _. Defined.

#[global] Instance is_block_dec (b : BLOCK) : Decision (is_block b).
Proof. unfold is_block. apply _. Defined.

(** [std::runtime_error] with its [what ()] string. *)
Inductive exn := runtime_error (what : string).

(** The outcome of a call that may throw. *)
Inductive result (A : Type) := Ok (a : A) | Throw (e : exn).
Arguments Ok {A} a.
Arguments Throw {A} e.

(** ** The collaborators *)

(** [cipher::AES] (cipher-aes.hpp): an object holding a key schedule, and a
    16-byte block transform under it. *)
Class BlockCipher := {
  AES : Type;
  aes_new : AES;
  set_encrypt_key128 : bytes -> AES -> AES;
  set_encrypt_key192 : bytes -> AES -> AES;
  set_encrypt_key256 : bytes -> AES -> AES;
  aes_encrypt : AES -> BLOCK -> BLOCK;
}.

(** [digest::GHASH] (digest-ghash.hpp): a stateful accumulator.  [digest ()]
    is not const, so it returns the accumulator it leaves behind. *)
Class Accumulator := {
  GHASH : Type;
  ghash_new : GHASH;
  ghash_set_key128 : BLOCK -> GHASH -> GHASH;
  ghash_set_authdata : bytes -> GHASH -> GHASH;
  ghash_add : bytes -> GHASH -> GHASH;
  ghash_digest : GHASH -> bytes * GHASH;
}.

(** Contract of the accumulator used by the chunking property: [add] folds a
    byte stream, so folding two ranges in turn is folding their
    concatenation. *)
Definition add_is_streaming `{Accumulator} : Prop :=
  forall (a b : bytes) (g : GHASH), ghash_add b (ghash_add a g) = ghash_add (a ++ b) g.

(** Contract of the accumulator: a digest is one block, sixteen bytes. *)
Definition digest_is_block `{Accumulator} : Prop :=
  forall g : GHASH, is_block (fst (ghash_digest g)).

(** Two accumulators hold the same key when reseeding them with any
    associated data leaves them in the same state. *)
Definition same_key `{Accumulator} (g1 g2 : GHASH) : Prop :=
  forall a : bytes, ghash_set_authdata a g1 = ghash_set_authdata a g2.

(** Contract of the accumulator: whatever is done to it short of setting a
    key, it holds the same key afterwards; [set_authdata] starts over from
    the key alone. *)
Definition key_survives `{Accumulator} : Prop :=
  forall (g : GHASH) (a x : bytes),
    same_key (ghash_set_authdata a g) g /\ same_key (ghash_add x g) g /\
    same_key (snd (ghash_digest g)) g.

(** ** Loops *)

(** [for (int i = from; i < from + n; ++i) a = body (i, a);] *)
Fixpoint for_up {A : Type} (n from : nat) (body : nat -> A -> A) (a : A) : A :=
  match n with
  | O => a
  | S n' => for_up n' (S from) body (body from a)
  end.

(** [std::copy (src.cbegin (), src.cend (), dst.begin ())] into a block.
    Writing past the end of the array is undefined in C++; the model keeps
    what fits. *)
Fixpoint std_copy (src : bytes) (dst : BLOCK) : BLOCK :=
  match src, dst with
  | x :: src', _ :: dst' => x :: std_copy src' dst'
  | _, _ => dst
  end.

(** The loop of [increment_counter]:
    [for (int i = i0 - 1; i >= 0; --i) { counter[i] += carry;
       carry = counter[i] < carry ? 1U : 0; }]
    with [uint8_t] arithmetic. *)
Fixpoint increment_loop (i0 : nat) (counter : BLOCK) (carry : Z) : BLOCK :=
  match i0 with
  | O => counter
  | S i =>
      let ci := ((counter !!! i + carry) mod 256)%Z in
      increment_loop i (<[i := ci]> counter) (if (ci <? carry)%Z then 1%Z else 0%Z)
  end.

Arguments increment_loop : simpl never.

(** One run of the loop over a whole block, as [increment_counter] starts
    it: [carry = 1U] and [i = counter.size () - 1]. *)
Definition incr (c : BLOCK) : BLOCK := increment_loop block_size c 1%Z.

(** The counter block in use [n] bytes after the cursor stood at [p] in the
    keystream block of counter [c]: one increment per exhausted block. *)
Definition counter_after (c : BLOCK) (p n : nat) : BLOCK :=
  Nat.iter ((p + n) / 16) incr c.

(** The 128-bit number a byte string denotes, first byte most significant. *)
Definition be_value (b : bytes) : Z :=
  fold_left (fun acc x => (acc * 256 + x)%Z) b 0%Z.

(** ** Operations of the comparison

    The tag comparison is specified by what it performs, not only by what
    it answers.  A [logged] computation yields its value together with the
    operations performed on the way, in order. *)

(** The two [volatile bool const] locals of the loop body of [good]. *)
Inductive volatile_bool := var_prev_ok | var_not_ok.

(** What the loop body of [good] performs: the initialisation of a volatile
    local (a store), the test [i >= expected_tag.size ()], the load
    [expected_tag[i]], the comparison [tag[i] == expected_c], and the load of
    the volatile local the conditional selects. *)
Inductive operation :=
| Init (v : volatile_bool)
| SizeTest (i : nat)
| LoadExpected (i : nat)
| Compare (i : nat)
| Read (v : volatile_bool).

#[global] Instance volatile_bool_eq_dec : EqDecision volatile_bool.
Proof. solve_decision. Defined.

#[global] Instance operation_eq_dec : EqDecision operation.
Proof. solve_decision. Defined.

Definition logged (A : Type) : Type := (A * list operation)%type.

(** A value at hand: nothing is performed. *)
Definition yield {A : Type} (a : A) : logged A := (a, []).

(** One operation and the value it yields. *)
Definition perform {A : Type} (op : operation) (a : A) : logged A := (a, [op]).

(** [m], then [k] on its value: the log of [m] followed by that of [k]. *)
Definition and_then {A B : Type} (m : logged A) (k : A -> logged B) : logged B :=
  (fst (k (fst m)), snd m ++ snd (k (fst m))).

Notation "'let*' x ':=' m 'in' k" := (and_then m (fun x => k))
  (at level 10, x name, m at level 100, k at level 200).

(** The indices at which a log holds a byte comparison, in order. *)
Definition compared (l : list operation) : list nat :=
  flat_map (fun op => match op with Compare i => [i] | _ => [] end) l.

(** The locals the reads of a log load, in order. *)
Definition selected (l : list operation) : list volatile_bool :=
  flat_map (fun op => match op with Read v => [v] | _ => [] end) l.

(** Two operations are the same up to which of the two locals a [Read]
    loads. *)
Definition same_operation (a b : operation) : bool :=
  match a, b with
  | Read _, Read _ => true
  | _, _ => bool_decide (a = b)
  end.

(** Two logs hold the same operations in the same order, up to which local
    each [Read] loads. *)
Definition same_operations (l l' : list operation) : Prop :=
  Forall2 (fun a b => same_operation a b = true) l l'.

(** ** The session *)

Section Session.
Context `{BlockCipher} `{Accumulator}.

Record AES_GCM := mkAES_GCM {
  ghash : GHASH;
  aes : AES;
  authdata : bytes;
  nonce : bytes;
  expected_tag : bytes;
  tag : bytes;
  state : State;
  pos : nat;
  counter : BLOCK;
  key_stream0 : BLOCK;
  key_stream : BLOCK;
}.

(** Field assignments. *)
Definition with_ghash (v : GHASH) (g : AES_GCM) : AES_GCM :=
  mkAES_GCM v (aes g) (authdata g) (nonce g) (expected_tag g) (tag g)
            (state g) (pos g) (counter g) (key_stream0 g) (key_stream g).
Definition with_aes (v : AES) (g : AES_GCM) : AES_GCM :=
  mkAES_GCM (ghash g) v (authdata g) (nonce g) (expected_tag g) (tag g)
            (state g) (pos g) (counter g) (key_stream0 g) (key_stream g).
Definition with_authdata (v : bytes) (g : AES_GCM) : AES_GCM :=
  mkAES_GCM (ghash g) (aes g) v (nonce g) (expected_tag g) (tag g)
            (state g) (pos g) (counter g) (key_stream0 g) (key_stream g).
Definition with_nonce (v : bytes) (g : AES_GCM) : AES_GCM :=
  mkAES_GCM (ghash g) (aes g) (authdata g) v (expected_tag g) (tag g)
            (state g) (pos g) (counter g) (key_stream0 g) (key_stream g).
Definition with_expected_tag (v : bytes) (g : AES_GCM) : AES_GCM :=
  mkAES_GCM (ghash g) (aes g) (authdata g) (nonce g) v (tag g)
            (state g) (pos g) (counter g) (key_stream0 g) (key_stream g).
Definition with_tag (v : bytes) (g : AES_GCM) : AES_GCM :=
  mkAES_GCM (ghash g) (aes g) (authdata g) (nonce g) (expected_tag g) v
            (state g) (pos g) (counter g) (key_stream0 g) (key_stream g).
Definition with_state (v : State) (g : AES_GCM) : AES_GCM :=
  mkAES_GCM (ghash g) (aes g) (authdata g) (nonce g) (expected_tag g) (tag g)
            v (pos g) (counter g) (key_stream0 g) (key_stream g).
Definition with_pos (v : nat) (g : AES_GCM) : AES_GCM :=
  mkAES_GCM (ghash g) (aes g) (authdata g) (nonce g) (expected_tag g) (tag g)
            (state g) v (counter g) (key_stream0 g) (key_stream g).
Definition with_counter (v : BLOCK) (g : AES_GCM) : AES_GCM :=
  mkAES_GCM (ghash g) (aes g) (authdata g) (nonce g) (expected_tag g) (tag g)
            (state g) (pos g) v (key_stream0 g) (key_stream g).
Definition with_key_stream0 (v : BLOCK) (g : AES_GCM) : AES_GCM :=
  mkAES_GCM (ghash g) (aes g) (authdata g) (nonce g) (expected_tag g) (tag g)
            (state g) (pos g) (counter g) v (key_stream g).
Definition with_key_stream (v : BLOCK) (g : AES_GCM) : AES_GCM :=
  mkAES_GCM (ghash g) (aes g) (authdata g) (nonce g) (expected_tag g) (tag g)
            (state g) (pos g) (counter g) (key_stream0 g) v.

(** A session inside a message. *)
Definition active (g : AES_GCM) : Prop := state g = ENCRYPT \/ state g = DECRYPT.

(** The keystream block of a session is the encryption of its counter and
    the cursor points into it. *)
Definition stream_ok (g : AES_GCM) : Prop :=
  pos g < 16 /\ key_stream g = aes_encrypt (aes g) (counter g).

(** [AES_GCM::clear] *)
Definition clear (g : AES_GCM) : AES_GCM :=
  with_pos 0 (with_state INIT (with_expected_tag [] (with_nonce [] (with_authdata [] g)))).

(** [AES_GCM::AES_GCM]: the members are default-constructed and [clear] is
    called.  The three arrays are left with indeterminate contents, which the
    model takes as arguments. *)
Definition AES_GCM_new (c0 k0 k : BLOCK) : AES_GCM :=
  clear (mkAES_GCM ghash_new aes_new [] [] [] [] INIT 0 c0 k0 k).

(** [AES_GCM::set_ghash_key] *)
Definition set_ghash_key (g : AES_GCM) : AES_GCM :=
  let zero := replicate block_size 0%Z in
  let hash_key := aes_encrypt (aes g) zero in
  with_ghash (ghash_set_key128 hash_key (ghash g)) g.

(** [AES_GCM::set_key128], [set_key192], [set_key256] *)
Definition set_key128 (key128 : bytes) (g : AES_GCM) : AES_GCM :=
  set_ghash_key (with_aes (set_encrypt_key128 key128 (aes g)) g).
Definition set_key192 (key192 : bytes) (g : AES_GCM) : AES_GCM :=
  set_ghash_key (with_aes (set_encrypt_key192 key192 (aes g)) g).
Definition set_key256 (key256 : bytes) (g : AES_GCM) : AES_GCM :=
  set_ghash_key (with_aes (set_encrypt_key256 key256 (aes g)) g).

(** [AES_GCM::add_authdata], [set_nonce], [set_authtag] *)
Definition add_authdata (a : bytes) (g : AES_GCM) : AES_GCM := with_authdata a g.
Definition set_nonce (a : bytes) (g : AES_GCM) : AES_GCM := with_nonce a g.
Definition set_authtag (a : bytes) (g : AES_GCM) : AES_GCM := with_expected_tag a g.

(** [AES_GCM::increment_counter] *)
Definition increment_counter (g : AES_GCM) : AES_GCM :=
  let g1 := with_counter (increment_loop block_size (counter g) 1%Z) g in
  with_key_stream (aes_encrypt (aes g1) (counter g1)) g1.

(** The [if]/[else] statement of [AES_GCM::reset_counter]: it leaves the
    initial counter block J0 in [counter]. *)
Definition derive_j0 (g : AES_GCM) : AES_GCM :=
  if decide (length (nonce g) = 12) then
    let c := std_copy (nonce g) (counter g) in
    with_counter (<[15 := 1%Z]> (<[14 := 0%Z]> (<[13 := 0%Z]> (<[12 := 0%Z]> c)))) g
  else
    let g1 := with_ghash (ghash_set_authdata [] (ghash g)) g in
    let '(h, gh) := ghash_digest (ghash_add (nonce g1) (ghash g1)) in
    with_counter (std_copy h (counter g1)) (with_ghash gh g1).

(** [AES_GCM::reset_counter] *)
Definition reset_counter (g : AES_GCM) : AES_GCM :=
  let g1 := derive_j0 g in
  let g2 := with_key_stream0 (aes_encrypt (aes g1) (counter g1)) g1 in
  increment_counter g2.

(** [AES_GCM::encrypt] *)
Definition encrypt (g : AES_GCM) : AES_GCM :=
  let g1 := reset_counter g in
  let g2 := with_tag [] g1 in
  let g3 := with_ghash (ghash_set_authdata (authdata g2) (ghash g2)) g2 in
  with_state ENCRYPT g3.

(** [AES_GCM::decrypt] *)
Definition decrypt (g : AES_GCM) : AES_GCM :=
  with_state DECRYPT (encrypt g).

(** The body of the loop of [authtag]:
    [tag[i] = static_cast<std::uint8_t> (tag[i]) ^ key_stream0[i]].
    An index past the block is outside the array in C++; the model reads a
    fixed default there, and a digest of one block never gets there. *)
Definition mask_step (key_stream0 : BLOCK) (i : nat) (tag : bytes) : bytes :=
  <[i := Z.lxor (tag !!! i) (key_stream0 !!! i)]> tag.

(** [AES_GCM::authtag]: the returned string and the session afterwards. *)
Definition authtag (g : AES_GCM) : bytes * AES_GCM :=
  if decide (state g = ENCRYPT \/ state g = DECRYPT) then
    let '(d, gh) := ghash_digest (ghash g) in
    let g1 := with_tag d (with_ghash gh g) in
    let t := for_up (length (tag g1)) 0 (mask_step (key_stream0 g1)) (tag g1) in
    let g2 := with_state FINAL (with_tag t g1) in
    (tag g2, g2)
  else (tag g, g).

(** The body of the loop of [good]:
    [expected_c = i >= expected_tag.size () ? 0 : expected_tag[i];
     ok = tag[i] == expected_c ? prev_ok : not_ok]. *)
Definition good_step (tag expected_tag : bytes) (i : nat) (ok : bool) : bool :=
  let prev_ok := ok in
  let not_ok := false in
  let expected_c :=
    if decide (length expected_tag <= i) then 0%Z else expected_tag !!! i in
  if decide (tag !!! i = expected_c) then prev_ok else not_ok.

(** [AES_GCM::good]: the returned boolean and the session afterwards. *)
Definition good (g : AES_GCM) : bool * AES_GCM :=
  let '(_, g1) := authtag g in
  (for_up (length (tag g1)) 0 (good_step (tag g1) (expected_tag g1)) true, g1).

(** The body of the loop of [good] once more, operation by operation:
    [volatile bool const prev_ok = ok;
     volatile bool const not_ok = false;
     int const expected_c = i >= expected_tag.size () ? 0 : expected_tag[i];
     ok = tag[i] == expected_c ? prev_ok : not_ok;]
    The comparison is logged by the step that makes it, and the conditional
    loads the one local it selects. *)
Definition good_step_logged (tag expected_tag : bytes) (i : nat) (ok : bool) :
    logged bool :=
  let* prev_ok := perform (Init var_prev_ok) ok in
  let* not_ok := perform (Init var_not_ok) false in
  let* past := perform (SizeTest i) (bool_decide (length expected_tag <= i)) in
  let* expected_c :=
    if past : bool then yield 0%Z
    else perform (LoadExpected i) (expected_tag !!! i) in
  let* equal := perform (Compare i) (bool_decide (tag !!! i = expected_c)) in
  if equal : bool then perform (Read var_prev_ok) prev_ok
  else perform (Read var_not_ok) not_ok.

(** [AES_GCM::good] with the log of its loop: [authtag ()], [ok = true], then
    the body at every [i] from 0 up to [tag.size ()]; the loop holds no
    [break] and no [return]. *)
Definition good_logged (g : AES_GCM) : logged bool :=
  let '(_, g1) := authtag g in
  for_up (length (tag g1)) 0
    (fun i run => let* ok := run in good_step_logged (tag g1) (expected_tag g1) i ok)
    (yield true).

(** The operations of the body at index [i]; they do not depend on [ok]. *)
Definition step_operations (tag expected_tag : bytes) (i : nat) : list operation :=
  snd (good_step_logged tag expected_tag i true).

(** The [while (s < e)] loop of [update] over the bytes of the range:
    [c = *s++; dst.push_back (static_cast<std::uint8_t> (c) ^ key_stream[pos]);
     if (++pos >= key_stream.size ()) { increment_counter (); pos = 0; }] *)
Fixpoint update_loop (src : bytes) (dst : bytes) (g : AES_GCM) : bytes * AES_GCM :=
  match src with
  | [] => (dst, g)
  | c :: src' =>
      let dst1 := dst ++ [Z.lxor c (key_stream g !!! pos g)] in
      let g1 := with_pos (S (pos g)) g in
      let g2 := if decide (block_size <= pos g1)
                then with_pos 0 (increment_counter g1) else g1 in
      update_loop src' dst1 g2
  end.

(** [AES_GCM::update (s, e)], the iterators being the offsets [s] and [e]
    into the string [str].  The result of the call and the session
    afterwards; a throw leaves the session as it was. *)
Definition update_range (str : bytes) (s e : nat) (g : AES_GCM)
    : result bytes * AES_GCM :=
  if decide (ENCRYPT <> state g /\ DECRYPT <> state g) then
    (Throw (runtime_error "update() decends encrypt() or decrypt()."), g)
  else if decide (e <= s) then (Ok [], g)
  else
    let src := take (e - s) (drop s str) in
    let g1 := if decide (DECRYPT = state g)
              then with_ghash (ghash_add src (ghash g)) g else g in
    let '(dst, g2) := update_loop src [] g1 in
    let g3 := if decide (ENCRYPT = state g2)
              then with_ghash (ghash_add dst (ghash g2)) g2 else g2 in
    (Ok dst, g3).

(** [AES_GCM::update (src)] *)
Definition update (src : bytes) (g : AES_GCM) : result bytes * AES_GCM :=
  update_range src 0 (length src) g.

(** A caller feeding the chunks one [update] call after the other and
    concatenating what the calls return; it stops at the first throw. *)
Fixpoint update_chunks (chunks : list bytes) (g : AES_GCM) : result bytes * AES_GCM :=
  match chunks with
  | [] => (Ok [], g)
  | c :: rest =>
      match update c g with
      | (Ok out, g1) =>
          match update_chunks rest g1 with
          | (Ok outs, g2) => (Ok (out ++ outs), g2)
          | (Throw e, g2) => (Throw e, g2)
          end
      | (Throw e, g1) => (Throw e, g1)
      end
  end.

(** A caller that encrypts [P] on a configured session and then, on the same
    object, sets the tag it got as the expected tag and decrypts what it got:
    [encrypt (); C = update (P); T = authtag (); set_authtag (T); decrypt ();
     update (C); good ()].  It returns the result of the second [update] and
    the answer of [good]. *)
Definition roundtrip_reusing (g : AES_GCM) (P : bytes) : result bytes * bool :=
  match update P (encrypt g) with
  | (Ok C, g1) =>
      let '(T, g2) := authtag g1 in
      let '(r, g3) := update C (decrypt (set_authtag T g2)) in
      (r, fst (good g3))
  | (Throw e, _) => (Throw e, false)
  end.

(** The same caller with a second object [d] for the decryption. *)
Definition roundtrip_two_sessions (e d : AES_GCM) (P : bytes) : result bytes * bool :=
  match update P (encrypt e) with
  | (Ok C, g1) =>
      let '(T, g2) := authtag g1 in
      let '(r, g3) := update C (decrypt (set_authtag T d)) in
      (r, fst (good g3))
  | (Throw e, _) => (Throw e, false)
  end.

(** Whether a run gave back the plaintext [P]. *)
Definition recovered (P : bytes) (r : result bytes * bool) : bool :=
  match fst r with
  | Ok p => bool_decide (p = P)
  | Throw _ => false
  end.

(** The initial counter block in the words of the specification: the nonce
    followed by 00 00 00 01 when the nonce has 12 bytes, and otherwise the
    digest of the nonce folded after empty associated data. *)
Definition J0_of_nonce (g : AES_GCM) : BLOCK :=
  if decide (length (nonce g) = 12) then nonce g ++ [0; 0; 0; 1]%Z
  else fst (ghash_digest (ghash_add (nonce g) (ghash_set_authdata [] (ghash g)))).

(** Byte [j] of the keystream that starts at cursor [p] of the block of
    counter [c]. *)
Definition keystream_byte (a : AES) (c : BLOCK) (p j : nat) : Z :=
  aes_encrypt a (counter_after c p j) !!! ((p + j) mod 16).

(** The bytes [src] XORed with that keystream, byte for byte. *)
Definition xor_keystream (a : AES) (c : BLOCK) (p : nat) (src : bytes) : bytes :=
  imap (fun j x => Z.lxor x (keystream_byte a c p j)) src.

(** The public member functions of the class, as calls with their
    arguments. *)
Inductive call :=
| Clear
| SetKey128 (key128 : bytes)
| SetKey192 (key192 : bytes)
| SetKey256 (key256 : bytes)
| AddAuthdata (a : bytes)
| SetNonce (a : bytes)
| SetAuthtag (a : bytes)
| Encrypt
| Decrypt
| Update (src : bytes)
| UpdateRange (str : bytes) (s e : nat)
| Authtag
| Good.

(** The session a call leaves; what the call returns, and whether it threw,
    is dropped. *)
Definition call_on (c : call) (g : AES_GCM) : AES_GCM :=
  match c with
  | Clear => clear g
  | SetKey128 k => set_key128 k g
  | SetKey192 k => set_key192 k g
  | SetKey256 k => set_key256 k g
  | AddAuthdata a => add_authdata a g
  | SetNonce a => set_nonce a g
  | SetAuthtag a => set_authtag a g
  | Encrypt => encrypt g
  | Decrypt => decrypt g
  | Update src => snd (update src g)
  | UpdateRange str s e => snd (update_range str s e g)
  | Authtag => snd (authtag g)
  | Good => snd (good g)
  end.

(** A caller making the calls one after the other on one object. *)
Definition run (cs : list call) (g : AES_GCM) : AES_GCM :=
  fold_left (fun g c => call_on c g) cs g.

(** The state machine the calls follow, read off the assignments to [state]:
    [clear], [encrypt] and [decrypt] set it whatever it was, [authtag] (and
    [good] through it) moves ENCRYPT and DECRYPT to FINAL, nothing else
    writes it. *)
Definition next_state (c : call) (s : State) : State :=
  match c with
  | Clear => INIT
  | Encrypt => ENCRYPT
  | Decrypt => DECRYPT
  | Authtag | Good =>
      match s with
      | ENCRYPT | DECRYPT => FINAL
      | _ => s
      end
  | _ => s
  end.

(** The calls that install a key. *)
Definition is_set_key (c : call) : bool :=
  match c with
  | SetKey128 _ | SetKey192 _ | SetKey256 _ => true
  | _ => false
  end.

End Session.

(** ** Reference collaborators *)

(** Modelled from the spec: the block cipher collaborator ([cipher::AES],
    whose code is not part of the session layer).  The spec asks for a pure,
    deterministic 16-byte transform under a 16, 24 or 32 byte key and names
    AES; this is the cipher of FIPS-197. *)
Module FIPS197.

(** Multiplication by x in GF(2^8) modulo x^8 + x^4 + x^3 + x + 1. *)
Definition xtime (b : Z) : Z :=
  Z.land (Z.lxor (Z.shiftl b 1) (if Z.testbit b 7 then 27 else 0)) 255.

Fixpoint gf_mul_loop (n : nat) (a b : Z) : Z :=
  match n with
  | O => 0%Z
  | S n' => Z.lxor (if Z.odd b then a else 0%Z)
                   (gf_mul_loop n' (xtime a) (Z.shiftr b 1))
  end.

Definition gf_mul (a b : Z) : Z := gf_mul_loop 8 a b.

(** The inverse a^254 (and 0 for 0). *)
Definition gf_inv (a : Z) : Z := Nat.iter 253 (gf_mul a) a.

Definition rotl8 (x : Z) (k : Z) : Z :=
  Z.land (Z.lor (Z.shiftl x k) (Z.shiftr x (8 - k))) 255.

Definition sbox_of (a : Z) : Z :=
  let x := gf_inv a in
  Z.lxor x (Z.lxor (rotl8 x 1) (Z.lxor (rotl8 x 2) (Z.lxor (rotl8 x 3)
    (Z.lxor (rotl8 x 4) 99)))).

Definition sbox : list Z :=
  Eval vm_compute in map (fun i => sbox_of (Z.of_nat i)) (seq 0 256).

Definition sub_byte (b : Z) : Z := nth (Z.to_nat b) sbox 0%Z.

Definition xor_bytes (a b : list Z) : list Z := zip_with Z.lxor a b.

Definition rot_word (w : list Z) : list Z :=
  match w with
  | a :: r => r ++ [a]
  | [] => []
  end.

(** Key expansion: [n] more words after the words [w], the next one being
    word number [i]. *)
Fixpoint expand (n : nat) (nk i : nat) (rcon : Z) (w : list (list Z))
    : list (list Z) :=
  match n with
  | O => w
  | S n' =>
      let prev := nth (i - 1) w [] in
      let '(temp, rcon') :=
        if decide (i mod nk = 0)
        then (xor_bytes (map sub_byte (rot_word prev)) [rcon; 0; 0; 0]%Z, xtime rcon)
        else if decide (6 < nk /\ i mod nk = 4)
             then (map sub_byte prev, rcon)
             else (prev, rcon) in
      expand n' nk (S i) rcon' (w ++ [xor_bytes (nth (i - nk) w []) temp])
  end.

Fixpoint words (n : nat) (key : list Z) : list (list Z) :=
  match n with
  | O => []
  | S n' => take 4 key :: words n' (drop 4 key)
  end.

(** The key schedule, as the bytes of its 4 * (nk + 7) words. *)
Definition key_schedule (nk : nat) (key : list Z) : list Z :=
  concat (expand (4 * (nk + 7) - nk) nk nk 1%Z (words nk key)).

Definition round_key (ks : list Z) (r : nat) : list Z := take 16 (drop (16 * r) ks).

(** The state is kept in the order of the input bytes: byte [4 * c + r] is
    row [r] of column [c]. *)
Definition shift_rows (s : list Z) : list Z :=
  map (fun i => nth (4 * ((i / 4 + i mod 4) mod 4) + i mod 4) s 0%Z) (seq 0 16).

Definition mix_column (c : list Z) : list Z :=
  let a0 := nth 0 c 0%Z in let a1 := nth 1 c 0%Z in
  let a2 := nth 2 c 0%Z in let a3 := nth 3 c 0%Z in
  [ Z.lxor (gf_mul 2 a0) (Z.lxor (gf_mul 3 a1) (Z.lxor a2 a3));
    Z.lxor a0 (Z.lxor (gf_mul 2 a1) (Z.lxor (gf_mul 3 a2) a3));
    Z.lxor a0 (Z.lxor a1 (Z.lxor (gf_mul 2 a2) (gf_mul 3 a3)));
    Z.lxor (gf_mul 3 a0) (Z.lxor a1 (Z.lxor a2 (gf_mul 2 a3))) ]%Z.

Definition mix_columns (s : list Z) : list Z :=
  concat (map mix_column (words 4 s)).

Fixpoint rounds (n : nat) (r : nat) (ks : list Z) (s : list Z) : list Z :=
  match n with
  | O => s
  | S n' =>
      rounds n' (S r) ks
        (xor_bytes (mix_columns (shift_rows (map sub_byte s))) (round_key ks r))
  end.

(** The cipher object: the number of rounds and the key schedule. *)
Record aes := mk_aes { aes_nr : nat; aes_ks : list Z }.

Definition set_key (nk : nat) (key : list Z) (_ : aes) : aes :=
  mk_aes (nk + 6) (key_schedule nk key).

Definition cipher (a : aes) (blk : list Z) : list Z :=
  let s := xor_bytes blk (round_key (aes_ks a) 0) in
  let s := rounds (aes_nr a - 1) 1 (aes_ks a) s in
  xor_bytes (shift_rows (map sub_byte s)) (round_key (aes_ks a) (aes_nr a)).

End FIPS197.

(** The block cipher of the reference sessions; a default-constructed object
    has no key schedule. *)
#[global] Instance aes_cipher : BlockCipher := {|
  AES := FIPS197.aes;
  aes_new := FIPS197.mk_aes 0 [];
  set_encrypt_key128 := FIPS197.set_key 4;
  set_encrypt_key192 := FIPS197.set_key 6;
  set_encrypt_key256 := FIPS197.set_key 8;
  aes_encrypt := FIPS197.cipher;
|}.

(** Modelled from the spec: the accumulator collaborator ([digest::GHASH],
    whose code is not part of the session layer).  The spec describes it by
    [set_key], [set_authdata] (resets the running digest, seeding it with the
    associated data), [add] (folds more bytes) and [digest] (16 bytes,
    combining the folded data with the length block of the mode); this is
    GHASH of SP 800-38D over what was folded. *)
Module SP800_38D.

(** The reduction constant 11100001 || 0^120. *)
Definition R : Z := Z.shiftl 225 120.

(** Multiplication in GF(2^128); a block is the number its bytes denote,
    so bit 0 of the standard is bit 127 of the number. *)
Fixpoint mul_loop (n : nat) (x z v : Z) : Z :=
  match n with
  | O => z
  | S n' =>
      let z' := if Z.testbit x (Z.of_nat n') then Z.lxor z v else z in
      let v' := if Z.odd v then Z.lxor (Z.shiftr v 1) R else Z.shiftr v 1 in
      mul_loop n' x z' v'
  end.

Definition mul (x y : Z) : Z := mul_loop 128 x 0%Z y.

(** The bytes of [v], [n] of them, first byte most significant. *)
Fixpoint to_be (n : nat) (v : Z) : list Z :=
  match n with
  | O => []
  | S n' => to_be n' (v / 256) ++ [(v mod 256)%Z]
  end.

Definition pad16 (d : list Z) : list Z :=
  d ++ replicate ((16 - length d mod 16) mod 16) 0%Z.

Fixpoint fold_blocks (n : nat) (h y : Z) (d : list Z) : Z :=
  match n with
  | O => y
  | S n' => fold_blocks n' h (mul (Z.lxor y (be_value (take 16 d))) h) (drop 16 d)
  end.

(** The accumulator: the hash subkey, the associated data and what was
    folded after it. *)
Record acc := mk_acc { acc_key : list Z; acc_aad : list Z; acc_data : list Z }.

Definition set_key128 (k : list Z) (a : acc) : acc :=
  mk_acc k (acc_aad a) (acc_data a).
Definition set_authdata (d : list Z) (a : acc) : acc := mk_acc (acc_key a) d [].
Definition add (d : list Z) (a : acc) : acc :=
  mk_acc (acc_key a) (acc_aad a) (acc_data a ++ d).

Definition digest (a : acc) : list Z * acc :=
  let d := pad16 (acc_aad a) ++ pad16 (acc_data a)
           ++ to_be 8 (8 * Z.of_nat (length (acc_aad a)))
           ++ to_be 8 (8 * Z.of_nat (length (acc_data a))) in
  (to_be 16 (fold_blocks (length d / 16) (be_value (acc_key a)) 0%Z d), a).

End SP800_38D.

(** The accumulator of the reference sessions. *)
#[global] Instance ghash_accumulator : Accumulator := {|
  GHASH := SP800_38D.acc;
  ghash_new := SP800_38D.mk_acc [] [] [];
  ghash_set_key128 := SP800_38D.set_key128;
  ghash_set_authdata := SP800_38D.set_authdata;
  ghash_add := SP800_38D.add;
  ghash_digest := SP800_38D.digest;
|}.

(** Bytes written in hexadecimal, two lower-case digits a byte. *)
Definition hex (s : string) : list Z :=
  let fix go (l : list Ascii.ascii) : list Z :=
    match l with
    | a :: b :: r =>
        let d c := let n := Z.of_nat (Ascii.nat_of_ascii c) in
                   (if n <? 58 then n - 48 else n - 87)%Z in
        (16 * d a + d b)%Z :: go r
    | _ => []
    end in
  go (list_ascii_of_string s).

(** ** Concrete sessions *)

Definition zero_block : BLOCK := replicate 16 0%Z.

(** A new session; the three arrays, which C++ leaves indeterminate, hold
    zeros here. *)
Definition new_session : AES_GCM := AES_GCM_new zero_block zero_block zero_block.

(** A session with a 128-bit key, associated data and a nonce set, ready for
    [encrypt] or [decrypt]. *)
Definition ready (key128 n a : bytes) : AES_GCM :=
  set_nonce n (add_authdata a (set_key128 key128 new_session)).

(** The values of test cases 2, 4 and 5 of the GCM specification. *)
Definition tc_key : bytes := hex "feffe9928665731c6d6a8f9467308308".
Definition tc_nonce12 : bytes := hex "cafebabefacedbaddecaf888".
Definition tc_nonce8 : bytes := hex "cafebabefacedbad".
Definition tc_aad : bytes := hex "feedfacedeadbeeffeedfacedeadbeefabaddad2".
Definition tc_plain : bytes :=
  hex "d9313225f88406e5a55909c5aff5269a86a7a9531534f7da2e4c303d8a318a721c3c0c95956809532fcf0e2449a6b525b16aedf5aa0de657ba637b39".

(** One whole encryption: the ciphertext and the tag. *)
Definition seal (g : AES_GCM) (P : bytes) : result bytes * bytes :=
  let '(c, g1) := update P (encrypt g) in (c, fst (authtag g1)).

(** The session test case 2 leaves behind: key and nonce of zeros, one block
    of zeros encrypted, the tag taken. *)
Definition finished : AES_GCM :=
  snd (authtag (snd (update zero_block (encrypt (ready zero_block (replicate 12 0%Z) []))))).

(** ** Properties of the loops *)

Lemma std_copy_length (src : bytes) (dst : BLOCK) :
  length (std_copy src dst) = length dst.
Proof.
  revert dst. induction src as [|x src IH]; intros [|d dst]; simpl; auto.
Qed.

Lemma std_copy_exact (src : bytes) (dst : BLOCK) :
  length src = length dst -> std_copy src dst = src.
Proof.
  revert dst. induction src as [|x src IH]; intros [|d dst]; simpl; intros Hl;
    try discriminate; auto.
  f_equal. apply IH. lia.
Qed.

Lemma std_copy_prefix (src rest : bytes) (dst : BLOCK) :
  length dst = length src + length rest ->
  take (length src) (std_copy src dst) = src /\
  length (std_copy src dst) = length src + length rest.
Proof.
  revert dst. induction src as [|x src IH]; intros dst Hl; simpl in *.
  - split; [reflexivity | destruct dst; simpl in *; lia].
  - destruct dst as [|d dst]; simpl in *; [lia|].
    destruct (IH dst) as [IH1 IH2]; [lia|]. rewrite IH1, IH2. auto.
Qed.

Lemma be_value_snoc (l : bytes) (x : Z) :
  be_value (l ++ [x]) = (be_value l * 256 + x)%Z.
Proof. unfold be_value. rewrite fold_left_app. reflexivity. Qed.

Lemma be_value_bound (l : bytes) :
  Forall is_byte l -> (0 <= be_value l < 256 ^ Z.of_nat (length l))%Z.
Proof.
  induction l as [|x l IH] using rev_ind; intros Hb.
  - simpl. unfold be_value. simpl. lia.
  - apply Forall_app in Hb as [Hl Hx]. apply Forall_cons in Hx as [Hx _].
    specialize (IH Hl). unfold is_byte in Hx.
    rewrite be_value_snoc, length_app. simpl length.
    replace (Z.of_nat (length l + 1)) with (Z.succ (Z.of_nat (length l))) by lia.
    rewrite Z.pow_succ_r by lia. nia.
Qed.

Lemma lookup_total_at_length (l1 l2 : bytes) (x : Z) :
  (l1 ++ x :: l2) !!! length l1 = x.
Proof. apply list_lookup_total_middle. reflexivity. Qed.

Lemma insert_at_length (l1 l2 : bytes) (x y : Z) :
  <[length l1 := y]> (l1 ++ x :: l2) = l1 ++ y :: l2.
Proof.
  rewrite insert_app_r_alt by lia. rewrite Nat.sub_diag. reflexivity.
Qed.

Lemma increment_loop_S (i : nat) (c : bytes) (carry : Z) :
  increment_loop (S i) c carry =
  increment_loop i (<[i := ((c !!! i + carry) mod 256)%Z]> c)
    (if ((c !!! i + carry) mod 256 <? carry)%Z then 1%Z else 0%Z).
Proof. reflexivity. Qed.

(** The loop started at [i0] leaves the bytes from [i0] on as they are. *)
Lemma increment_loop_app (l1 l2 : bytes) (carry : Z) :
  increment_loop (length l1) (l1 ++ l2) carry = increment_loop (length l1) l1 carry ++ l2.
Proof.
  revert l2 carry. induction l1 as [|x l1 IH] using rev_ind; intros l2 carry.
  - reflexivity.
  - rewrite length_app. simpl length. rewrite Nat.add_1_r, !increment_loop_S.
    rewrite <- app_assoc. simpl app.
    rewrite !lookup_total_at_length, !insert_at_length.
    rewrite (IH (_ :: l2)), (IH [_]), <- app_assoc. reflexivity.
Qed.

Lemma increment_loop_snoc (l : bytes) (x carry : Z) :
  increment_loop (S (length l)) (l ++ [x]) carry =
  increment_loop (length l) l
    (if ((x + carry) mod 256 <? carry)%Z then 1 else 0)%Z ++ [((x + carry) mod 256)%Z].
Proof.
  rewrite increment_loop_S, lookup_total_at_length, insert_at_length.
  apply increment_loop_app.
Qed.

(** The loop over a whole byte string adds the carry to the number the string
    denotes, modulo 256 to the power of its length. *)
Lemma increment_loop_value (l : bytes) (carry : Z) :
  Forall is_byte l -> (carry = 0 \/ carry = 1)%Z ->
  Forall is_byte (increment_loop (length l) l carry) /\
  length (increment_loop (length l) l carry) = length l /\
  be_value (increment_loop (length l) l carry) =
    ((be_value l + carry) mod 256 ^ Z.of_nat (length l))%Z.
Proof.
  revert carry. induction l as [|x l IH] using rev_ind; intros carry Hb Hc.
  - simpl. repeat split; auto. unfold be_value. simpl.
    rewrite Z.mod_1_r. reflexivity.
  - apply Forall_app in Hb as [Hl Hx]. apply Forall_cons in Hx as [Hx _].
    pose proof (be_value_bound l Hl) as HV. unfold is_byte in Hx.
    rewrite length_app. simpl length. rewrite Nat.add_1_r.
    rewrite increment_loop_snoc.
    set (ci := ((x + carry) mod 256)%Z).
    set (c' := (if (ci <? carry)%Z then 1 else 0)%Z).
    assert (Hci : (0 <= ci < 256)%Z) by (apply Z.mod_pos_bound; lia).
    assert (Hc' : (c' = 0 \/ c' = 1)%Z) by (unfold c'; destruct (ci <? carry)%Z; auto).
    destruct (IH c' Hl Hc') as (IH1 & IH2 & IH3).
    split; [|split].
    + apply Forall_app. split; [exact IH1|]. apply Forall_cons. split; [exact Hci|constructor].
    + rewrite length_app, IH2. simpl. lia.
    + rewrite be_value_snoc, IH3, be_value_snoc.
      replace (Z.of_nat (S (length l))) with (Z.succ (Z.of_nat (length l))) by lia.
      rewrite Z.pow_succ_r by lia.
      set (M := (256 ^ Z.of_nat (length l))%Z) in *.
      assert (HM : (0 < M)%Z) by lia.
      assert (Hcase : ((c' = 0 /\ ci = x + carry) \/ (c' = 1 /\ ci = 0 /\ x + carry = 256))%Z).
      { unfold c', ci. destruct Hc as [-> | ->].
        - left. rewrite Z.add_0_r, Z.mod_small by lia.
          destruct (x <? 0)%Z eqn:E; [lia|]. auto.
        - destruct (Z.eq_dec x 255%Z) as [-> | Hne].
          + right. simpl. auto.
          + left. rewrite Z.mod_small by lia.
            destruct (x + 1 <? 1)%Z eqn:E; [lia|]. auto. }
      destruct Hcase as [[-> ->] | (-> & -> & Hov)].
      * rewrite Z.add_0_r, (Z.mod_small (be_value l)) by lia.
        rewrite Z.mod_small by nia. lia.
      * replace (be_value l * 256 + x + carry)%Z with ((be_value l + 1) * 256)%Z by lia.
        rewrite (Z.mul_comm 256 M), Z.mul_mod_distr_r by lia. lia.
Qed.

Lemma increment_block (c : BLOCK) :
  is_block c ->
  is_block (increment_loop block_size c 1) /\
  be_value (increment_loop block_size c 1) = ((be_value c + 1) mod 2 ^ 128)%Z.
Proof.
  intros [Hl Hb]. rewrite <- Hl.
  destruct (increment_loop_value c 1 Hb) as (H1 & H2 & H3); [auto|].
  split; [split; [rewrite H2; exact Hl | exact H1]|].
  rewrite H3, Hl. reflexivity.
Qed.

(** The masking loop over a whole tag XORs every byte with the mask byte at
    the same index. *)
Lemma mask_loop_from (ks0 : BLOCK) (l1 l2 : bytes) :
  for_up (length l2) (length l1) (mask_step ks0) (l1 ++ l2) =
  l1 ++ imap (fun i x => Z.lxor x (ks0 !!! (length l1 + i))) l2.
Proof.
  revert l1. induction l2 as [|x l2 IH]; intros l1; [reflexivity|].
  simpl. unfold mask_step at 2.
  rewrite lookup_total_at_length, insert_at_length.
  rewrite (cons_middle _ l1 l2), app_assoc.
  replace (S (length l1)) with (length (l1 ++ [Z.lxor x (ks0 !!! length l1)]))
    by (rewrite length_app; simpl; lia).
  rewrite IH, <- app_assoc. simpl. rewrite Nat.add_0_r. do 2 f_equal.
  apply imap_ext. intros i y _. simpl. rewrite length_app. simpl.
  do 2 f_equal. lia.
Qed.

Lemma mask_loop (ks0 : BLOCK) (t : bytes) :
  for_up (length t) 0 (mask_step ks0) t = imap (fun i x => Z.lxor x (ks0 !!! i)) t.
Proof. exact (mask_loop_from ks0 [] t). Qed.

(** The comparison loop answers [true] exactly when it was started with
    [true] and every index of its range holds equal bytes. *)
Lemma good_loop (t e : bytes) (n from : nat) (ok : bool) :
  for_up n from (good_step t e) ok = true <->
  ok = true /\
  forall i, from <= i < from + n ->
    t !!! i = (if decide (length e <= i) then 0%Z else e !!! i).
Proof.
  revert from ok. induction n as [|n IH]; intros from ok; simpl.
  - split; [intros ->; split; [reflexivity | intros i Hi; lia] | intros [-> _]; reflexivity].
  - rewrite IH. unfold good_step at 1. split.
    + intros [Hok Hall]. destruct (decide (t !!! from = _)) as [Heq|Hne]; [|discriminate].
      split; [exact Hok|]. intros i Hi.
      destruct (decide (i = from)) as [->|Hn]; [exact Heq | apply Hall; lia].
    + intros [-> Hall]. split; [|intros i Hi; apply Hall; lia].
      rewrite decide_True; [reflexivity | apply Hall; lia].
Qed.

(** A step of the logged loop answers as the step of [good], and performs
    the same operations whatever [ok] holds. *)
Lemma good_step_logged_eq (t e : bytes) (i : nat) (ok : bool) :
  good_step_logged t e i ok = (good_step t e i ok, step_operations t e i).
Proof.
  unfold step_operations, good_step_logged, good_step, and_then, perform, yield.
  cbn [fst snd].
  destruct (decide (length e <= i)) as [Hp|Hp].
  - rewrite !(bool_decide_eq_true_2 _ Hp). cbn [fst snd].
    destruct (decide (t !!! i = 0%Z)) as [Hq|Hq].
    + rewrite !(bool_decide_eq_true_2 _ Hq). reflexivity.
    + rewrite !(bool_decide_eq_false_2 _ Hq). reflexivity.
  - rewrite !(bool_decide_eq_false_2 _ Hp). cbn [fst snd].
    destruct (decide (t !!! i = e !!! i)) as [Hq|Hq].
    + rewrite !(bool_decide_eq_true_2 _ Hq). reflexivity.
    + rewrite !(bool_decide_eq_false_2 _ Hq). reflexivity.
Qed.

(** The operations of a step: two initialisations, the size test, the load
    of the expected byte when there is one, the comparison, one read. *)
Lemma step_operations_eq (t e : bytes) (i : nat) :
  step_operations t e i =
  [Init var_prev_ok; Init var_not_ok; SizeTest i] ++
  (if decide (length e <= i) then [] else [LoadExpected i]) ++
  [Compare i;
   Read (if decide (t !!! i = (if decide (length e <= i) then 0%Z else e !!! i))
         then var_prev_ok else var_not_ok)].
Proof.
  unfold step_operations, good_step_logged, and_then, perform, yield.
  cbn [fst snd].
  destruct (decide (length e <= i)) as [Hp|Hp].
  - rewrite (bool_decide_eq_true_2 _ Hp). cbn [fst snd].
    destruct (decide (t !!! i = 0%Z)) as [Hq|Hq].
    + rewrite (bool_decide_eq_true_2 _ Hq). reflexivity.
    + rewrite (bool_decide_eq_false_2 _ Hq). reflexivity.
  - rewrite (bool_decide_eq_false_2 _ Hp). cbn [fst snd].
    destruct (decide (t !!! i = e !!! i)) as [Hq|Hq].
    + rewrite (bool_decide_eq_true_2 _ Hq). reflexivity.
    + rewrite (bool_decide_eq_false_2 _ Hq). reflexivity.
Qed.

(** The logged loop answers as the loop of [good], and its log is that of
    the steps at the indices of its range, in order. *)
Lemma good_loop_logged (t e : bytes) (n from : nat) (run : logged bool) :
  for_up n from (fun i run => let* ok := run in good_step_logged t e i ok) run =
  (for_up n from (good_step t e) (fst run),
   snd run ++ flat_map (step_operations t e) (seq from n)).
Proof.
  revert from run. induction n as [|n IH]; intros from [ok l]; simpl.
  - rewrite app_nil_r. reflexivity.
  - rewrite IH. unfold and_then. rewrite good_step_logged_eq. simpl.
    rewrite <- app_assoc. reflexivity.
Qed.

Lemma compared_app (l1 l2 : list operation) :
  compared (l1 ++ l2) = compared l1 ++ compared l2.
Proof. apply flat_map_app. Qed.

(** Each step makes one comparison, at its own index. *)
Lemma compared_step (t e : bytes) (i : nat) : compared (step_operations t e i) = [i].
Proof.
  rewrite step_operations_eq. destruct (decide (length e <= i)); reflexivity.
Qed.

Lemma compared_steps (t e : bytes) (n from : nat) :
  compared (flat_map (step_operations t e) (seq from n)) = seq from n.
Proof.
  revert from. induction n as [|n IH]; intros from; cbn [flat_map seq]; [reflexivity|].
  rewrite compared_app, compared_step, IH. reflexivity.
Qed.

(** Each step reads one local: [prev_ok] where the bytes are equal, [not_ok]
    where they differ. *)
Lemma selected_steps (t e : bytes) (n from : nat) :
  selected (flat_map (step_operations t e) (seq from n)) =
  map (fun i =>
         if decide (t !!! i = (if decide (length e <= i) then 0%Z else e !!! i))
         then var_prev_ok else var_not_ok) (seq from n).
Proof.
  revert from. induction n as [|n IH]; intros from; cbn [flat_map seq map]; [reflexivity|].
  unfold selected in *. rewrite flat_map_app, IH, step_operations_eq.
  destruct (decide (length e <= from)); reflexivity.
Qed.

(** Five operations a step, and one more while the expected tag lasts. *)
Lemma length_steps (t e : bytes) (n from : nat) :
  length (flat_map (step_operations t e) (seq from n)) + from `min` length e =
  5 * n + (from + n) `min` length e.
Proof.
  revert from. induction n as [|n IH]; intros from; cbn [flat_map seq length]; [lia|].
  rewrite length_app. specialize (IH (S from)).
  rewrite step_operations_eq.
  destruct (decide (length e <= from)); cbn [length app]; lia.
Qed.

(** Steps at one index are the same up to the local their read loads, when
    the expected tags have one length. *)
Lemma same_steps (t e t' e' : bytes) (n from : nat) :
  length e' = length e ->
  same_operations (flat_map (step_operations t e) (seq from n))
                  (flat_map (step_operations t' e') (seq from n)).
Proof.
  intros He. unfold same_operations.
  revert from. induction n as [|n IH]; intros from; cbn [flat_map seq]; [constructor|].
  apply Forall2_app; [|apply IH].
  rewrite !step_operations_eq, He.
  destruct (decide (length e <= from));
    repeat (constructor; [simpl; try reflexivity; apply bool_decide_eq_true_2; reflexivity|]);
    constructor.
Qed.

(** ** Properties of the session *)

Section SessionProperties.
Context `{BlockCipher} `{Accumulator}.

(* The session lemmas never look inside the counter loop. *)
#[local] Opaque increment_loop.

Implicit Type g : AES_GCM.

Lemma authtag_fst_tag g : fst (authtag g) = tag (snd (authtag g)).
Proof.
  unfold authtag. destruct (decide _); [|reflexivity].
  destruct (ghash_digest (ghash g)); reflexivity.
Qed.

Lemma authtag_state g : state (snd (authtag g)) <> ENCRYPT /\ state (snd (authtag g)) <> DECRYPT.
Proof.
  unfold authtag. destruct (decide _) as [Ha|Hn].
  - destruct (ghash_digest (ghash g)); simpl. split; discriminate.
  - simpl. split; intros E; apply Hn; auto.
Qed.

Lemma authtag_finalizes g : active g -> state (snd (authtag g)) = FINAL.
Proof.
  intros Ha. unfold authtag. rewrite decide_True by exact Ha.
  destruct (ghash_digest (ghash g)); reflexivity.
Qed.

Lemma authtag_inactive g : ~ active g -> authtag g = (tag g, g).
Proof. intros Hn. unfold authtag. rewrite decide_False by exact Hn. reflexivity. Qed.

Lemma increment_counter_counter g :
  counter (increment_counter g) = increment_loop block_size (counter g) 1.
Proof. reflexivity. Qed.

(** C7. The counter increment, applied to the counter of sixteen bytes 0xFF,
    leaves the counter of sixteen bytes 0x00; on every counter it adds one
    modulo 2^128 to the number the sixteen bytes denote with the first byte
    most significant, so the carry runs from the last byte to the first; the
    new keystream block is the encryption of the new counter. *)
Theorem increment_counter_adds_one g :
  is_block (counter g) ->
  is_block (counter (increment_counter g)) /\
  be_value (counter (increment_counter g)) = ((be_value (counter g) + 1) mod 2 ^ 128)%Z /\
  key_stream (increment_counter g) = aes_encrypt (aes g) (counter (increment_counter g)) /\
  (counter g = replicate 16 255%Z -> counter (increment_counter g) = replicate 16 0%Z).
Proof.
  intros Hb. destruct (increment_block _ Hb) as [H1 H2].
  rewrite increment_counter_counter.
  split; [exact H1|]. split; [exact H2|]. split; [reflexivity|].
  intros ->. vm_compute. reflexivity.
Qed.

(** C8 (amended). [clear] puts the session in INIT, sets the cursor to 0 and
    empties the nonce, the associated data and the expected tag given by
    [set_authtag]; the computed tag, the counter, the two keystream blocks,
    the cipher and the accumulator are left as they were.  The computed tag
    is emptied by the next [encrypt] or [decrypt]. *)
Theorem clear_resets_inputs_only g :
  state (clear g) = INIT /\ pos (clear g) = 0 /\
  nonce (clear g) = [] /\ authdata (clear g) = [] /\ expected_tag (clear g) = [] /\
  tag (clear g) = tag g /\ counter (clear g) = counter g /\
  key_stream0 (clear g) = key_stream0 g /\ key_stream (clear g) = key_stream g /\
  ghash (clear g) = ghash g /\ aes (clear g) = aes g /\
  tag (encrypt (clear g)) = [] /\ tag (decrypt (clear g)) = [].
Proof. repeat split. Qed.

(** C10. In INIT, [authtag] changes no field of the session and returns the
    stored tag.  [clear] keeps the stored tag, so right after [clear] the
    call returns the tag the session held before: the tag of the message
    finalized before the [clear], and the empty string on a new session. *)
Theorem authtag_in_INIT_returns_stored_tag g (g0 : AES_GCM) (c0 k0 k : BLOCK) :
  state g = INIT ->
  authtag g = (tag g, g) /\
  authtag (clear g0) = (tag g0, clear g0) /\
  authtag (clear (snd (authtag g0))) = (fst (authtag g0), clear (snd (authtag g0))) /\
  authtag (AES_GCM_new c0 k0 k) = ([], AES_GCM_new c0 k0 k).
Proof.
  intros Hs. split; [|split; [|split]].
  - apply authtag_inactive. unfold active. rewrite Hs. intros [E|E]; discriminate.
  - reflexivity.
  - rewrite authtag_fst_tag. reflexivity.
  - reflexivity.
Qed.

Lemma update_range_inactive (str : bytes) (s e : nat) g :
  state g <> ENCRYPT -> state g <> DECRYPT ->
  update_range str s e g =
    (Throw (runtime_error "update() decends encrypt() or decrypt()."), g).
Proof.
  intros H1 H2. unfold update_range.
  rewrite decide_True by (split; congruence). reflexivity.
Qed.

(** C6. Outside ENCRYPT and DECRYPT, every [update] throws, returns nothing
    and leaves the session (cursor, counter and keystream included) as it
    was.  This covers INIT, as after [clear], and the state [authtag]
    leaves, which is FINAL after a message. *)
Theorem update_outside_message_throws g (g0 : AES_GCM) (str : bytes) (s e : nat) :
  (state g <> ENCRYPT /\ state g <> DECRYPT) \/ g = clear g0 \/ g = snd (authtag g0) ->
  update_range str s e g =
    (Throw (runtime_error "update() decends encrypt() or decrypt()."), g) /\
  update str g =
    (Throw (runtime_error "update() decends encrypt() or decrypt()."), g).
Proof.
  intros Hg.
  assert (Hst : state g <> ENCRYPT /\ state g <> DECRYPT).
  { destruct Hg as [Hs | [-> | ->]].
    - exact Hs.
    - split; discriminate.
    - apply authtag_state. }
  destruct Hst as [H1 H2]. unfold update.
  split; apply update_range_inactive; assumption.
Qed.

(** C4. Once [authtag] has left a 16-byte tag, [good] answers [true] exactly
    when at each index 0..15 the tag byte equals the expected-tag byte, an
    expected byte at or past the length of the expected tag counting as 0.
    [good] always returns a boolean, together with the session [authtag]
    left; in particular an expected tag that is a proper prefix of the tag
    is accepted exactly when the remaining tag bytes are all 0. *)
Theorem good_compares_sixteen_bytes g :
  length (fst (authtag g)) = 16 ->
  (fst (good g) = true <->
   forall i, i < 16 ->
     fst (authtag g) !!! i =
       (if decide (length (expected_tag g) <= i) then 0%Z else expected_tag g !!! i)) /\
  snd (good g) = snd (authtag g) /\
  (forall n, n <= 16 -> expected_tag g = take n (fst (authtag g)) ->
     (fst (good g) = true <-> forall i, n <= i < 16 -> fst (authtag g) !!! i = 0%Z)).
Proof.
  intros Hlen.
  assert (Hexp : expected_tag (snd (authtag g)) = expected_tag g).
  { unfold authtag. destruct (decide _); [|reflexivity].
    destruct (ghash_digest (ghash g)); reflexivity. }
  assert (Hgood : fst (good g) = true <->
    forall i, i < 16 -> fst (authtag g) !!! i =
      (if decide (length (expected_tag g) <= i) then 0%Z else expected_tag g !!! i)).
  { unfold good. rewrite authtag_fst_tag in *.
    destruct (authtag g) as [t g1]. simpl in *.
    rewrite good_loop, Hlen, Hexp. split.
    - intros [_ Hall] i Hi. apply Hall. lia.
    - intros Hall. split; [reflexivity|]. intros i Hi. apply Hall. lia. }
  split; [exact Hgood|]. split.
  - unfold good. destruct (authtag g); reflexivity.
  - intros n Hn Hpre. rewrite Hgood.
    split; intros Hall i Hi.
    + specialize (Hall i ltac:(lia)). rewrite Hpre, length_take, Hlen in Hall.
      rewrite decide_True in Hall by lia. exact Hall.
    + rewrite Hpre, length_take, Hlen.
      destruct (decide (n `min` 16 <= i)) as [Hge|Hlt].
      * apply Hall. lia.
      * rewrite lookup_total_take, decide_True by lia. reflexivity.
Qed.

Lemma authtag_expected_tag g : expected_tag (snd (authtag g)) = expected_tag g.
Proof.
  unfold authtag. destruct (decide _); [|reflexivity].
  destruct (ghash_digest (ghash g)); reflexivity.
Qed.

(** The log of [good]: the steps at every index of the tag [authtag] left. *)
Lemma good_logged_eq g :
  good_logged g =
  (fst (good g),
   flat_map (step_operations (fst (authtag g)) (expected_tag g))
            (seq 0 (length (fst (authtag g))))).
Proof.
  rewrite authtag_fst_tag, <- (authtag_expected_tag g). unfold good_logged, good.
  destruct (authtag g) as [t g1]. cbn [fst snd].
  rewrite good_loop_logged. reflexivity.
Qed.



(** *** Chunks *)

Lemma update_loop_dst (src dst : bytes) g :
  update_loop src dst g =
  (dst ++ fst (update_loop src [] g), snd (update_loop src [] g)).
Proof.
  revert dst g. induction src as [|c src IH]; intros dst g; simpl.
  - rewrite app_nil_r. reflexivity.
  - rewrite IH. rewrite (IH [_]). simpl. rewrite <- app_assoc. reflexivity.
Qed.

Lemma update_loop_app (a b : bytes) g :
  update_loop (a ++ b) [] g =
  (fst (update_loop a [] g) ++ fst (update_loop b [] (snd (update_loop a [] g))),
   snd (update_loop b [] (snd (update_loop a [] g)))).
Proof.
  revert g. induction a as [|c a IH]; intros g.
  - simpl. destruct (update_loop b [] g); reflexivity.
  - simpl. rewrite update_loop_dst, IH. rewrite (update_loop_dst a [_]). simpl.
    reflexivity.
Qed.

(** The loop reads and writes the cursor, the counter and the keystream
    block only: a change of another field commutes with it. *)
Lemma update_loop_frame (f : AES_GCM -> AES_GCM) :
  (forall g, key_stream (f g) = key_stream g) ->
  (forall g, pos (f g) = pos g) ->
  (forall g p, with_pos p (f g) = f (with_pos p g)) ->
  (forall g, increment_counter (f g) = f (increment_counter g)) ->
  forall (src dst : bytes) g,
    update_loop src dst (f g) =
    (fst (update_loop src dst g), f (snd (update_loop src dst g))).
Proof.
  intros Hk Hp Hwp Hic src. induction src as [|c src IH]; intros dst g; simpl.
  - reflexivity.
  - rewrite Hk, Hp. destruct (decide (block_size <= S (pos g))).
    + rewrite Hwp, Hic, Hwp. apply IH.
    + rewrite Hwp. apply IH.
Qed.

Lemma update_loop_with_ghash (x : GHASH) (src dst : bytes) g :
  update_loop src dst (with_ghash x g) =
  (fst (update_loop src dst g), with_ghash x (snd (update_loop src dst g))).
Proof. apply (update_loop_frame (with_ghash x)); reflexivity. Qed.

Lemma update_loop_with_key_stream0 (k : BLOCK) (src dst : bytes) g :
  update_loop src dst (with_key_stream0 k g) =
  (fst (update_loop src dst g), with_key_stream0 k (snd (update_loop src dst g))).
Proof. apply (update_loop_frame (with_key_stream0 k)); reflexivity. Qed.

(** What the loop leaves alone. *)
Lemma update_loop_keeps (src dst : bytes) g :
  let g' := snd (update_loop src dst g) in
  state g' = state g /\ ghash g' = ghash g /\ aes g' = aes g /\
  key_stream0 g' = key_stream0 g /\ expected_tag g' = expected_tag g /\
  tag g' = tag g /\ nonce g' = nonce g /\ authdata g' = authdata g.
Proof.
  revert dst g. induction src as [|c src IH]; intros dst g; simpl.
  - repeat split.
  - destruct (decide (block_size <= S (pos g))).
    + destruct (IH (dst ++ [Z.lxor c (key_stream g !!! pos g)])
                   (with_pos 0 (increment_counter (with_pos (S (pos g)) g))))
        as (E1 & E2 & E3 & E4 & E5 & E6 & E7 & E8).
      simpl in *. rewrite E1, E2, E3, E4, E5, E6, E7, E8. repeat split.
    + destruct (IH (dst ++ [Z.lxor c (key_stream g !!! pos g)]) (with_pos (S (pos g)) g))
        as (E1 & E2 & E3 & E4 & E5 & E6 & E7 & E8).
      simpl in *. rewrite E1, E2, E3, E4, E5, E6, E7, E8. repeat split.
Qed.

(** [update] inside a message, on a range that is not empty. *)
Lemma update_active (src : bytes) g :
  active g -> src <> [] ->
  update src g =
  (Ok (fst (update_loop src [] g)),
   with_ghash
     (ghash_add (if decide (DECRYPT = state g) then src else fst (update_loop src [] g))
                (ghash g))
     (snd (update_loop src [] g))).
Proof.
  intros Ha Hne. unfold update, update_range.
  rewrite decide_False by (destruct Ha as [E|E]; rewrite E; intros [? ?]; congruence).
  rewrite decide_False by (destruct src; [congruence | simpl; lia]).
  rewrite Nat.sub_0_r, drop_0, firstn_all.
  destruct (decide (DECRYPT = state g)) as [Hd|Hd].
  - rewrite update_loop_with_ghash. simpl.
    destruct (update_loop_keeps src [] g) as (E1 & _). simpl in E1.
    rewrite decide_False; [reflexivity|]. simpl. rewrite E1, <- Hd. discriminate.
  - destruct (update_loop src [] g) as [dst g2] eqn:El.
    destruct (update_loop_keeps src [] g) as (E1 & E2 & _). rewrite El in E1, E2.
    simpl in *. rewrite decide_True; [rewrite E2; reflexivity|].
    rewrite E1. destruct Ha as [E|E]; congruence.
Qed.

Lemma update_empty g : active g -> update [] g = (Ok [], g).
Proof.
  intros Ha. unfold update, update_range.
  rewrite decide_False by (destruct Ha as [E|E]; rewrite E; intros [? ?]; congruence).
  reflexivity.
Qed.

Lemma update_range_empty (str : bytes) (s e : nat) g :
  active g -> e <= s -> update_range str s e g = (Ok [], g).
Proof.
  intros Ha Hse. unfold update_range.
  rewrite decide_False by (destruct Ha as [E|E]; rewrite E; intros [? ?]; congruence).
  rewrite decide_True by exact Hse. reflexivity.
Qed.

Lemma update_keeps_active (src : bytes) g :
  active g -> active (snd (update src g)).
Proof.
  intros Ha. destruct src as [|c src].
  - rewrite update_empty by exact Ha. exact Ha.
  - rewrite update_active by (auto; discriminate).
    destruct (update_loop_keeps (c :: src) [] g) as (E1 & _).
    unfold active in *. simpl in *. rewrite E1. exact Ha.
Qed.

(** Two [update] calls in a row are one call on the concatenation. *)
Lemma update_app (a b : bytes) g :
  add_is_streaming -> active g ->
  update (a ++ b) g =
  match update a g with
  | (Ok oa, ga) =>
      match update b ga with
      | (Ok ob, gb) => (Ok (oa ++ ob), gb)
      | (Throw e, gb) => (Throw e, gb)
      end
  | (Throw e, ga) => (Throw e, ga)
  end.
Proof.
  intros Hadd Ha.
  destruct a as [|x a]; [rewrite update_empty by exact Ha; simpl;
    destruct (update b g) as [[ob|e] gb]; reflexivity|].
  destruct b as [|y b].
  { rewrite app_nil_r. pose proof (update_keeps_active (x :: a) g Ha) as Ha'.
    destruct (update (x :: a) g) as [[oa|e] ga] eqn:E; [|reflexivity].
    simpl in Ha'. rewrite update_empty by exact Ha'. rewrite app_nil_r. reflexivity. }
  pose proof (update_keeps_active (x :: a) g Ha) as Ha'.
  rewrite (update_active (x :: a) g) in * by (auto; discriminate).
  simpl snd in Ha'.
  rewrite update_active by (auto; discriminate).
  rewrite (update_active (y :: b)) by (auto; discriminate).
  set (la := update_loop (x :: a) [] g) in *.
  rewrite update_loop_app. fold la.
  rewrite update_loop_with_ghash.
  destruct (update_loop_keeps (x :: a) [] g) as (E1 & E2 & _). fold la in E1, E2.
  destruct (update_loop_keeps (y :: b) [] (snd la)) as (F1 & F2 & _).
  cbn [fst snd]. f_equal.
  change (state (with_ghash ?v ?h)) with (state h).
  change (ghash (with_ghash ?v ?h)) with v.
  rewrite E1.
  destruct (decide (DECRYPT = state g)); rewrite Hadd; reflexivity.
Qed.

Lemma update_chunks_single (chunks : list bytes) g :
  add_is_streaming -> active g ->
  update_chunks chunks g = update (concat chunks) g.
Proof.
  intros Hadd. revert g. induction chunks as [|c chunks IH]; intros g Ha.
  - simpl. rewrite update_empty by exact Ha. reflexivity.
  - simpl. rewrite update_app by assumption.
    pose proof (update_keeps_active c g Ha) as Ha'.
    destruct (update c g) as [[oc|e] gc]; [|reflexivity].
    simpl in Ha'. rewrite IH by exact Ha'. reflexivity.
Qed.

(** C3. Feeding a message to [update] chunk by chunk gives, whatever the
    chunks, the bytes, the session (so the accumulator, the cursor and the
    counter) and then the tag that one [update] call on the whole message
    gives; inside a message an [update] on an empty range returns the empty
    string and changes nothing.  The accumulator is taken to fold streams:
    adding two ranges in turn is adding their concatenation. *)
Theorem chunked_update_is_single_update (chunks : list bytes) g :
  add_is_streaming -> chunks <> [] ->
  update_chunks chunks g = update (concat chunks) g /\
  authtag (snd (update_chunks chunks g)) = authtag (snd (update (concat chunks) g)) /\
  (active g ->
   update [] g = (Ok [], g) /\
   forall (str : bytes) (s e : nat), e <= s -> update_range str s e g = (Ok [], g)).
Proof.
  intros Hadd Hne.
  assert (E : update_chunks chunks g = update (concat chunks) g).
  { destruct (decide (active g)) as [Ha|Hn].
    - apply update_chunks_single; assumption.
    - destruct chunks as [|c chunks]; [congruence|].
      assert (H1 : state g <> ENCRYPT) by (intros E; apply Hn; left; exact E).
      assert (H2 : state g <> DECRYPT) by (intros E; apply Hn; right; exact E).
      simpl. unfold update. rewrite !update_range_inactive by assumption.
      reflexivity. }
  split; [exact E|]. split; [rewrite E; reflexivity|].
  intros Ha. split; [apply update_empty; exact Ha|].
  intros str s e Hse. apply update_range_empty; assumption.
Qed.


(** *** Entry into a message *)

Lemma derive_j0_keeps g :
  aes (derive_j0 g) = aes g /\ authdata (derive_j0 g) = authdata g /\
  nonce (derive_j0 g) = nonce g /\ expected_tag (derive_j0 g) = expected_tag g /\
  tag (derive_j0 g) = tag g /\ state (derive_j0 g) = state g /\
  pos (derive_j0 g) = pos g /\ key_stream0 (derive_j0 g) = key_stream0 g /\
  key_stream (derive_j0 g) = key_stream g.
Proof.
  unfold derive_j0. destruct (decide _).
  - repeat split.
  - simpl. destruct (ghash_digest _). repeat split.
Qed.

Lemma derive_j0_ghash g :
  ghash (derive_j0 g) =
  if decide (length (nonce g) = 12) then ghash g
  else snd (ghash_digest (ghash_add (nonce g) (ghash_set_authdata [] (ghash g)))).
Proof.
  unfold derive_j0. destruct (decide _); [reflexivity|].
  simpl. destruct (ghash_digest _). reflexivity.
Qed.

Lemma derive_j0_counter g :
  digest_is_block -> length (counter g) = 16 ->
  counter (derive_j0 g) = J0_of_nonce g.
Proof.
  intros Hd Hc. unfold derive_j0, J0_of_nonce. destruct (decide _) as [Hn|Hn].
  - simpl. destruct (nonce g) as [|n0 [|n1 [|n2 [|n3 [|n4 [|n5 [|n6 [|n7
      [|n8 [|n9 [|n10 [|n11 [|n12 nn]]]]]]]]]]]]]; try discriminate.
    destruct (counter g) as [|c0 [|c1 [|c2 [|c3 [|c4 [|c5 [|c6 [|c7
      [|c8 [|c9 [|c10 [|c11 [|c12 [|c13 [|c14 [|c15 [|c16 cc]]]]]]]]]]]]]]]]];
      try discriminate.
    reflexivity.
  - simpl. pose proof (Hd (ghash_add (nonce g) (ghash_set_authdata [] (ghash g)))) as [Hl _].
    destruct (ghash_digest _) as [h gh]. simpl in *.
    apply std_copy_exact. rewrite Hl, Hc. reflexivity.
Qed.

Lemma J0_of_nonce_is_block g :
  digest_is_block -> Forall is_byte (nonce g) -> is_block (J0_of_nonce g).
Proof.
  intros Hd Hn. unfold J0_of_nonce. destruct (decide _) as [E|E]; [|apply Hd].
  split.
  - rewrite length_app, E. reflexivity.
  - apply Forall_app. split; [exact Hn|].
    repeat (apply Forall_cons; split; [unfold is_byte; lia|]). constructor.
Qed.

(** The session [encrypt] leaves, field by field. *)
Lemma encrypt_fields g :
  encrypt g =
  mkAES_GCM (ghash_set_authdata (authdata g) (ghash (derive_j0 g))) (aes g)
    (authdata g) (nonce g) (expected_tag g) [] ENCRYPT (pos g)
    (incr (counter (derive_j0 g)))
    (aes_encrypt (aes g) (counter (derive_j0 g)))
    (aes_encrypt (aes g) (incr (counter (derive_j0 g)))).
Proof.
  destruct (derive_j0_keeps g) as (E1 & E2 & E3 & E4 & E5 & E6 & E7 & E8 & E9).
  unfold encrypt, reset_counter, increment_counter, incr.
  destruct (derive_j0 g). simpl in *. subst. reflexivity.
Qed.

Lemma decrypt_fields g : decrypt g = with_state DECRYPT (encrypt g).
Proof. reflexivity. Qed.

(** Entering a message leaves the cursor where it was: only [clear] sets
    [pos] to 0. *)
Lemma entry_keeps_cursor g : pos (encrypt g) = pos g /\ pos (decrypt g) = pos g.
Proof. rewrite decrypt_fields, encrypt_fields. split; reflexivity. Qed.

(** C2. [encrypt] and [decrypt] derive the initial counter block J0 from the
    nonce that is set: the nonce followed by 00 00 00 01 when the nonce has
    12 bytes, and for every other length the digest of the accumulator
    reseeded with empty associated data and fed the nonce.  J0 is what
    [reset_counter] leaves in [counter] before it encrypts it into the
    reserved mask block and increments it. *)
Theorem J0_is_derived_from_nonce g :
  digest_is_block -> length (counter g) = 16 ->
  counter (derive_j0 g) = J0_of_nonce g /\
  (length (nonce g) = 12 -> J0_of_nonce g = nonce g ++ [0; 0; 0; 1]%Z) /\
  (length (nonce g) <> 12 ->
   J0_of_nonce g =
     fst (ghash_digest (ghash_add (nonce g) (ghash_set_authdata [] (ghash g))))) /\
  (forall g', g' = encrypt g \/ g' = decrypt g ->
     key_stream0 g' = aes_encrypt (aes g) (J0_of_nonce g) /\
     counter g' = incr (J0_of_nonce g) /\
     key_stream g' = aes_encrypt (aes g) (incr (J0_of_nonce g))).
Proof.
  intros Hd Hc. pose proof (derive_j0_counter g Hd Hc) as HJ.
  split; [exact HJ|]. split; [|split].
  - intros E. unfold J0_of_nonce. rewrite decide_True by exact E. reflexivity.
  - intros E. unfold J0_of_nonce. rewrite decide_False by exact E. reflexivity.
  - intros g' [-> | ->]; [|rewrite decrypt_fields]; rewrite encrypt_fields, HJ;
      repeat split.
Qed.

(** *** The keystream in closed form *)

Lemma counter_after_0 (c : BLOCK) (p : nat) : p < 16 -> counter_after c p 0 = c.
Proof.
  intros Hp. unfold counter_after. rewrite Nat.add_0_r, Nat.div_small by exact Hp.
  reflexivity.
Qed.

Lemma counter_after_step (c : BLOCK) (p j : nat) :
  p < 16 ->
  (16 <= S p -> counter_after c p (S j) = counter_after (incr c) 0 j /\
                (p + S j) mod 16 = (0 + j) mod 16) /\
  (~ 16 <= S p -> counter_after c p (S j) = counter_after c (S p) j /\
                  (p + S j) mod 16 = (S p + j) mod 16).
Proof.
  intros Hp. unfold counter_after. split; intros Hc.
  - replace (p + S j) with (j + 1 * 16) by lia.
    rewrite Nat.div_add, Nat.Div0.mod_add by lia. simpl (0 + j).
    rewrite Nat.add_1_r, Nat.iter_succ_r. auto.
  - replace (p + S j) with (S p + j) by lia. auto.
Qed.

Lemma counter_after_add (c : BLOCK) (p n j : nat) :
  counter_after c p (n + j) = counter_after (counter_after c p n) ((p + n) mod 16) j /\
  (p + (n + j)) mod 16 = ((p + n) mod 16 + j) mod 16.
Proof.
  unfold counter_after.
  pose proof (Nat.div_mod_eq (p + n) 16) as E.
  replace (p + (n + j)) with (((p + n) mod 16 + j) + (p + n) / 16 * 16) by lia.
  rewrite Nat.div_add, Nat.Div0.mod_add by lia.
  rewrite Nat.iter_add. auto.
Qed.

Lemma xor_keystream_app (a : AES) (c : BLOCK) (p : nat) (s1 s2 : bytes) :
  xor_keystream a c p (s1 ++ s2) =
  xor_keystream a c p s1 ++
  xor_keystream a (counter_after c p (length s1)) ((p + length s1) mod 16) s2.
Proof.
  unfold xor_keystream. rewrite imap_app. f_equal.
  apply imap_ext. intros j x _. simpl. unfold keystream_byte.
  destruct (counter_after_add c p (length s1) j) as [-> ->]. reflexivity.
Qed.

Lemma update_loop_closed (src dst : bytes) g :
  stream_ok g ->
  fst (update_loop src dst g) =
    dst ++ xor_keystream (aes g) (counter g) (pos g) src /\
  counter (snd (update_loop src dst g)) =
    counter_after (counter g) (pos g) (length src) /\
  pos (snd (update_loop src dst g)) = (pos g + length src) mod 16 /\
  stream_ok (snd (update_loop src dst g)).
Proof.
  revert dst g. induction src as [|x src IH]; intros dst g [Hp Hk].
  - cbn [update_loop fst snd length].
    change (xor_keystream (aes g) (counter g) (pos g) []) with (@nil Z).
    rewrite app_nil_r, counter_after_0, Nat.add_0_r, Nat.mod_small by exact Hp.
    repeat split; assumption.
  - cbn [update_loop length].
    assert (Hhead : key_stream g !!! pos g = keystream_byte (aes g) (counter g) (pos g) 0).
    { unfold keystream_byte. rewrite counter_after_0, Nat.add_0_r, Nat.mod_small by exact Hp.
      rewrite Hk. reflexivity. }
    unfold xor_keystream. rewrite imap_cons. cbn beta. rewrite <- Hhead.
    change (pos (with_pos (S (pos g)) g)) with (S (pos g)).
    destruct (decide (block_size <= S (pos g))) as [Hc|Hc].
    + destruct (IH (dst ++ [Z.lxor x (key_stream g !!! pos g)])
                   (with_pos 0 (increment_counter (with_pos (S (pos g)) g))))
        as (I1 & I2 & I3 & I4).
      { split; [simpl; lia | reflexivity]. }
      rewrite I1, I2, I3. split; [|split; [|split; [|exact I4]]].
      * rewrite <- app_assoc. cbn [app]. do 2 f_equal.
        apply imap_ext. intros j y _. cbn beta. unfold compose, keystream_byte.
        destruct (counter_after_step (counter g) (pos g) j Hp) as [[-> ->] _];
          [exact Hc|]. reflexivity.
      * destruct (counter_after_step (counter g) (pos g) (length src) Hp) as [[-> _] _];
          [exact Hc|]. reflexivity.
      * destruct (counter_after_step (counter g) (pos g) (length src) Hp) as [[_ ->] _];
          [exact Hc|]. reflexivity.
    + destruct (IH (dst ++ [Z.lxor x (key_stream g !!! pos g)]) (with_pos (S (pos g)) g))
        as (I1 & I2 & I3 & I4).
      { split; [unfold block_size in Hc; simpl; lia | exact Hk]. }
      rewrite I1, I2, I3. split; [|split; [|split; [|exact I4]]].
      * rewrite <- app_assoc. cbn [app]. do 2 f_equal.
        apply imap_ext. intros j y _. cbn beta. unfold compose, keystream_byte.
        destruct (counter_after_step (counter g) (pos g) j Hp) as [_ [-> ->]];
          [exact Hc|]. reflexivity.
      * destruct (counter_after_step (counter g) (pos g) (length src) Hp) as [_ [-> _]];
          [exact Hc|]. reflexivity.
      * destruct (counter_after_step (counter g) (pos g) (length src) Hp) as [_ [_ ->]];
          [exact Hc|]. reflexivity.
Qed.


Lemma xor_keystream_length (a : AES) (c : BLOCK) (p : nat) (src : bytes) :
  length (xor_keystream a c p src) = length src.
Proof. apply length_imap. Qed.

(** XOR with the same keystream twice gives the bytes back. *)
Lemma xor_keystream_involutive (a : AES) (c : BLOCK) (p : nat) (src : bytes) :
  xor_keystream a c p (xor_keystream a c p src) = src.
Proof.
  apply list_eq. intros i. unfold xor_keystream. rewrite !list_lookup_imap.
  destruct (src !! i) as [x|]; [|reflexivity]. simpl. f_equal.
  rewrite Z.lxor_assoc, Z.lxor_nilpotent, Z.lxor_0_r. reflexivity.
Qed.

(** [update] inside a message. *)
Lemma update_active_all (src : bytes) g :
  active g ->
  update src g =
  (Ok (fst (update_loop src [] g)),
   if decide (src = []) then g
   else with_ghash
     (ghash_add (if decide (DECRYPT = state g) then src else fst (update_loop src [] g))
                (ghash g))
     (snd (update_loop src [] g))).
Proof.
  intros Ha. destruct (decide (src = [])) as [-> | Hne].
  - apply update_empty. exact Ha.
  - apply update_active; assumption.
Qed.

Lemma update_closed (src : bytes) g :
  active g -> stream_ok g ->
  fst (update src g) = Ok (xor_keystream (aes g) (counter g) (pos g) src) /\
  counter (snd (update src g)) = counter_after (counter g) (pos g) (length src) /\
  pos (snd (update src g)) = (pos g + length src) mod 16 /\
  stream_ok (snd (update src g)) /\ active (snd (update src g)) /\
  aes (snd (update src g)) = aes g /\
  key_stream0 (snd (update src g)) = key_stream0 g /\
  expected_tag (snd (update src g)) = expected_tag g.
Proof.
  intros Ha Hs. pose proof (update_keeps_active src g Ha) as Ha'.
  rewrite update_active_all in * by exact Ha. cbn [fst snd] in *.
  destruct (update_loop_closed src [] g Hs) as (L1 & L2 & L3 & L4).
  destruct (update_loop_keeps src [] g) as (K1 & K2 & K3 & K4 & K5 & _).
  cbn zeta in *. rewrite L1. split; [reflexivity|].
  destruct (decide (src = [])) as [-> | Hne].
  - destruct Hs as [Hp Hk]. cbn [length].
    rewrite counter_after_0, Nat.add_0_r, Nat.mod_small by exact Hp.
    repeat split; assumption.
  - repeat split; try assumption; apply L4.
Qed.

Lemma update_chunks_closed (chunks : list bytes) g :
  active g -> stream_ok g ->
  fst (update_chunks chunks g) =
    Ok (xor_keystream (aes g) (counter g) (pos g) (concat chunks)) /\
  counter (snd (update_chunks chunks g)) =
    counter_after (counter g) (pos g) (length (concat chunks)) /\
  pos (snd (update_chunks chunks g)) = (pos g + length (concat chunks)) mod 16 /\
  stream_ok (snd (update_chunks chunks g)) /\ active (snd (update_chunks chunks g)) /\
  aes (snd (update_chunks chunks g)) = aes g /\
  key_stream0 (snd (update_chunks chunks g)) = key_stream0 g /\
  expected_tag (snd (update_chunks chunks g)) = expected_tag g.
Proof.
  revert g. induction chunks as [|c chunks IH]; intros g Ha Hs.
  - pose proof Hs as [Hp Hk]. cbn [update_chunks concat fst snd length].
    change (xor_keystream (aes g) (counter g) (pos g) []) with (@nil Z).
    rewrite counter_after_0, Nat.add_0_r, Nat.mod_small by exact Hp.
    repeat split; assumption.
  - cbn [update_chunks concat].
    destruct (update_closed c g Ha Hs) as (U1 & U2 & U3 & U4 & U5 & U6 & U7 & U8).
    destruct (update c g) as [[oc|ex] gc]; cbn [fst snd] in *; [|discriminate].
    destruct (IH gc U5 U4) as (I1 & I2 & I3 & I4 & I5 & I6 & I7 & I8).
    destruct (update_chunks chunks gc) as [[os|ex] gr]; cbn [fst snd] in *; [|discriminate].
    injection U1 as ->. injection I1 as ->.
    rewrite xor_keystream_app, length_app, I2, I3, U2, U3, U6.
    destruct (counter_after_add (counter g) (pos g) (length c) (length (concat chunks)))
      as [-> ->].
    repeat split; try assumption; try congruence; apply I4.
Qed.

(** [update] never reads the reserved mask block and never writes it. *)
Lemma update_with_key_stream0 (k : BLOCK) (src : bytes) g :
  update src (with_key_stream0 k g) =
  (fst (update src g), with_key_stream0 k (snd (update src g))).
Proof.
  destruct (decide (active g)) as [Ha|Hn].
  - rewrite (update_active_all src g Ha).
    rewrite (update_active_all src (with_key_stream0 k g)) by exact Ha.
    rewrite update_loop_with_key_stream0. cbn [fst snd].
    destruct (decide (src = [])); reflexivity.
  - assert (H1 : state g <> ENCRYPT) by (intros E; apply Hn; left; exact E).
    assert (H2 : state g <> DECRYPT) by (intros E; apply Hn; right; exact E).
    unfold update. rewrite !update_range_inactive by assumption. reflexivity.
Qed.

Lemma update_chunks_with_key_stream0 (k : BLOCK) (chunks : list bytes) g :
  update_chunks chunks (with_key_stream0 k g) =
  (fst (update_chunks chunks g), with_key_stream0 k (snd (update_chunks chunks g))).
Proof.
  revert g. induction chunks as [|c chunks IH]; intros g; [reflexivity|].
  cbn [update_chunks]. rewrite update_with_key_stream0.
  destruct (update c g) as [[oc|ex] gc]; cbn [fst snd]; [|reflexivity].
  rewrite IH. destruct (update_chunks chunks gc) as [[os|ex] gr]; reflexivity.
Qed.

(** [k] increments add [k] modulo 2^128. *)
Lemma iter_incr_value (k : nat) (c : BLOCK) :
  is_block c ->
  is_block (Nat.iter k incr c) /\
  be_value (Nat.iter k incr c) = ((be_value c + Z.of_nat k) mod 2 ^ 128)%Z.
Proof.
  intros Hc. induction k as [|k [IH1 IH2]].
  - simpl. split; [exact Hc|]. destruct Hc as [Hl Hb].
    pose proof (be_value_bound c Hb) as Hv. rewrite Hl in Hv.
    rewrite Z.add_0_r, Z.mod_small; [reflexivity|]. exact Hv.
  - cbn [Nat.iter]. destruct (increment_block _ IH1) as [J1 J2].
    split; [exact J1|].
    rewrite Nat.iter_succ. unfold incr at 1.
    rewrite J2, IH2.
    rewrite Zplus_mod_idemp_l. f_equal. lia.
Qed.

Lemma iter_incr_differs (k : nat) (c : BLOCK) :
  is_block c -> (Z.of_nat k < 2 ^ 128 - 1)%Z -> Nat.iter (S k) incr c <> c.
Proof.
  intros Hc Hk E. destruct (iter_incr_value (S k) c Hc) as [_ Hv].
  rewrite E in Hv. destruct Hc as [Hl Hb].
  pose proof (be_value_bound c Hb) as Hbd. rewrite Hl in Hbd.
  change (256 ^ Z.of_nat block_size)%Z with (2 ^ 128)%Z in Hbd.
  set (v := be_value c) in *. set (M := (2 ^ 128)%Z) in *.
  assert (HM : (0 < M)%Z) by (unfold M; lia).
  destruct (Z_lt_ge_dec (v + Z.of_nat (S k)) M) as [Hlt|Hge].
  - rewrite Z.mod_small in Hv by lia. lia.
  - assert (Hm : ((v + Z.of_nat (S k)) mod M = v + Z.of_nat (S k) - M)%Z).
    { symmetry. apply (Z.mod_unique _ _ 1); lia. }
    lia.
Qed.

(** [authtag] inside a message: the digest, masked byte for byte. *)
Lemma authtag_active g :
  active g ->
  fst (authtag g) =
  imap (fun i x => Z.lxor x (key_stream0 g !!! i)) (fst (ghash_digest (ghash g))).
Proof.
  intros Ha. unfold authtag. rewrite decide_True by exact Ha.
  destruct (ghash_digest (ghash g)) as [d gh]. cbn [fst].
  change (tag (with_state FINAL ?x)) with (tag x).
  change (tag (with_tag ?t ?x)) with t.
  change (key_stream0 (with_tag ?t ?x)) with (key_stream0 x).
  change (key_stream0 (with_ghash ?t ?x)) with (key_stream0 x).
  apply mask_loop.
Qed.

Lemma lookup_total_imap_lt (f : nat -> Z -> Z) (l : bytes) (i : nat) :
  i < length l -> imap f l !!! i = f i (l !!! i).
Proof.
  intros Hi. apply list_lookup_total_correct. rewrite list_lookup_imap.
  destruct (lookup_lt_is_Some_2 l i Hi) as [x Hx].
  rewrite Hx. simpl. rewrite (list_lookup_total_correct _ _ _ Hx). reflexivity.
Qed.

(** C5. The reserved mask block E(J0) is written once, by [encrypt] or
    [decrypt] on entry; no [update] writes it or reads it, so message bytes
    are never XORed with it; [authtag] XORs it into the digest, byte for
    byte.  Output byte [j] of the message is input byte [j] XORed with a
    byte of the encryption of J0 incremented [1 + (pos + j) / 16] times,
    and the counter incremented [1 + k] times is not J0 as long as
    [k < 2^128 - 1], that is until the 128-bit counter has wrapped. *)
Theorem reserved_mask_only_masks_tag g (s0 : AES_GCM) (chunks : list bytes) (m : BLOCK) :
  digest_is_block -> length (counter g) = 16 -> Forall is_byte (nonce g) ->
  pos g < 16 -> s0 = encrypt g \/ s0 = decrypt g ->
  let J0 := J0_of_nonce g in
  let mask := aes_encrypt (aes g) J0 in
  let r := update_chunks chunks s0 in
  key_stream0 s0 = mask /\
  key_stream0 (snd r) = mask /\
  update_chunks chunks (with_key_stream0 m s0) = (fst r, with_key_stream0 m (snd r)) /\
  fst r =
    Ok (imap (fun j x =>
                Z.lxor x (aes_encrypt (aes g)
                            (Nat.iter (S ((pos g + j) / 16)) incr J0)
                          !!! ((pos g + j) mod 16)))
             (concat chunks)) /\
  (forall k, (Z.of_nat k < 2 ^ 128 - 1)%Z ->
     Nat.iter (S k) incr J0 <> J0 /\
     be_value (Nat.iter (S k) incr J0) = ((be_value J0 + 1 + Z.of_nat k) mod 2 ^ 128)%Z) /\
  length (fst (authtag (snd r))) = 16 /\
  (forall i, i < 16 ->
     fst (authtag (snd r)) !!! i =
     Z.lxor (fst (ghash_digest (ghash (snd r))) !!! i) (mask !!! i)).
Proof.
  intros Hd Hc Hn Hp Hs0 J0 mask r.
  pose proof (derive_j0_counter g Hd Hc) as HJ. fold J0 in HJ.
  pose proof (J0_of_nonce_is_block g Hd Hn) as HJb. fold J0 in HJb.
  assert (F : aes s0 = aes g /\ counter s0 = incr J0 /\ pos s0 = pos g /\
              key_stream0 s0 = mask /\ stream_ok s0 /\ active s0).
  { unfold stream_ok, active.
    destruct Hs0 as [-> | ->]; [|rewrite decrypt_fields]; rewrite encrypt_fields, HJ;
      cbn; repeat split; auto. }
  destruct F as (Fa & Fc & Fp & Fk & Fs & Fact).
  destruct (update_chunks_closed chunks s0 Fact Fs) as (U1 & U2 & U3 & U4 & U5 & U6 & U7 & U8).
  fold r in U1, U2, U3, U4, U5, U6, U7, U8.
  split; [exact Fk|]. split; [rewrite U7; exact Fk|].
  split; [apply update_chunks_with_key_stream0|].
  split; [|split; [|split]].
  - rewrite U1, Fa, Fc, Fp. f_equal. apply imap_ext. intros j x _. cbn beta.
    unfold keystream_byte, counter_after. rewrite <- Nat.iter_succ_r. reflexivity.
  - intros k Hk. split; [apply iter_incr_differs; assumption|].
    destruct (iter_incr_value (S k) J0 HJb) as [_ ->]. f_equal. lia.
  - rewrite (authtag_active _ U5), length_imap. apply Hd.
  - intros i Hi. rewrite (authtag_active _ U5), lookup_total_imap_lt.
    + rewrite U7, Fk. reflexivity.
    + destruct (Hd (ghash (snd r))) as [-> _]. exact Hi.
Qed.

(** Round trip between two sessions that agree on the key, the nonce, the
    associated data and the cursor: what [encrypt] and [update] produce,
    [decrypt] and [update] turn back into the plaintext, and [good] accepts
    the tag of the encrypting session. *)
Lemma roundtrip_same_cursor (e d : AES_GCM) (P : bytes) :
  digest_is_block ->
  aes e = aes d -> same_key (ghash e) (ghash d) ->
  nonce e = nonce d -> authdata e = authdata d ->
  pos e = pos d -> pos e < 16 ->
  length (counter e) = 16 -> length (counter d) = 16 ->
  let rc := update P (encrypt e) in
  let T := fst (authtag (snd rc)) in
  exists C, fst rc = Ok C /\
    let rp := update C (decrypt (set_authtag T d)) in
    fst rp = Ok P /\ fst (good (snd rp)) = true.
Proof.
  intros Hd Ha Hk Hn Had Hp Hp16 Hce Hcd rc T.
  set (d' := set_authtag T d).
  assert (HJ : J0_of_nonce d' = J0_of_nonce e).
  { unfold J0_of_nonce, d'. cbn. rewrite Hn, (Hk []). reflexivity. }
  assert (HG : ghash_set_authdata (authdata d') (ghash (derive_j0 d')) =
               ghash_set_authdata (authdata e) (ghash (derive_j0 e))).
  { rewrite !derive_j0_ghash. unfold d'. cbn. rewrite Hn, Had, (Hk []).
    destruct (decide _); [rewrite (Hk (authdata d))|]; reflexivity. }
  pose proof (derive_j0_counter e Hd Hce) as Je.
  pose proof (derive_j0_counter d' Hd Hcd) as Jd. rewrite HJ in Jd.
  set (E0 := encrypt e) in *. set (D0 := decrypt d').
  assert (FE : aes E0 = aes e /\ counter E0 = incr (J0_of_nonce e) /\ pos E0 = pos e /\
               key_stream0 E0 = aes_encrypt (aes e) (J0_of_nonce e) /\
               stream_ok E0 /\ active E0 /\ state E0 = ENCRYPT /\
               ghash E0 = ghash_set_authdata (authdata e) (ghash (derive_j0 e))).
  { unfold E0, stream_ok, active. rewrite encrypt_fields, Je. cbn. repeat split; auto. }
  assert (FD : aes D0 = aes e /\ counter D0 = incr (J0_of_nonce e) /\ pos D0 = pos e /\
               key_stream0 D0 = aes_encrypt (aes e) (J0_of_nonce e) /\
               stream_ok D0 /\ active D0 /\ state D0 = DECRYPT /\
               ghash D0 = ghash_set_authdata (authdata e) (ghash (derive_j0 e)) /\
               expected_tag D0 = T).
  { unfold D0, stream_ok, active. rewrite decrypt_fields, encrypt_fields, Jd, HG.
    unfold d'. cbn. rewrite <- Ha, <- Hp. repeat split; auto. }
  destruct FE as (Ea & Ec & Ep & Ek & Es & Eact & Est & Eg).
  destruct FD as (Da & Dc & Dp & Dk & Ds & Dact & Dst & Dg & Dx).
  fold d' D0. clearbody E0 D0.
  set (C := xor_keystream (aes e) (incr (J0_of_nonce e)) (pos e) P).
  destruct (update_closed P E0 Eact Es) as (U1 & _ & _ & _ & U5 & _ & U7 & _).
  fold rc in U1, U5, U7. rewrite Ea, Ec, Ep in U1. fold C in U1.
  exists C. split; [exact U1|]. cbn zeta.
  destruct (update_closed C D0 Dact Ds) as (V1 & _ & _ & _ & V5 & _ & V7 & V8).
  rewrite Da, Dc, Dp in V1. unfold C in V1 at 2.
  rewrite xor_keystream_involutive in V1. split; [exact V1|].
  (* both sessions reach [authtag] with the same accumulator and mask *)
  assert (HgE : ghash (snd rc) = ghash (snd (update C D0))).
  { unfold rc. rewrite (update_active_all P E0 Eact), (update_active_all C D0 Dact).
    assert (HC : fst (update_loop P [] E0) = C).
    { destruct (update_loop_closed P [] E0 Es) as [L _]. rewrite L, Ea, Ec, Ep. reflexivity. }
    cbn [snd]. destruct (decide (P = [])) as [-> | HP].
    - rewrite decide_True by reflexivity. congruence.
    - assert (HCne : C <> []).
      { intros EC. apply HP. apply nil_length_inv.
        rewrite <- (xor_keystream_length (aes e) (incr (J0_of_nonce e)) (pos e) P).
        fold C. rewrite EC. reflexivity. }
      rewrite (decide_False (P := C = [])) by exact HCne.
      change (ghash (with_ghash ?v ?x)) with v.
      rewrite Est, Dst, HC, Eg, Dg.
      rewrite decide_False by discriminate. rewrite decide_True by reflexivity.
      reflexivity. }
  assert (HT : fst (authtag (snd (update C D0))) = T).
  { unfold T. rewrite (authtag_active _ V5), (authtag_active _ U5).
    rewrite <- HgE, V7, U7, Dk, Ek. reflexivity. }
  unfold good. rewrite authtag_fst_tag in HT.
  assert (HX : expected_tag (snd (authtag (snd (update C D0)))) = T).
  { rewrite <- Dx, <- V8. unfold authtag. destruct (decide _); [|reflexivity].
    destruct (ghash_digest _); reflexivity. }
  destruct (authtag (snd (update C D0))) as [t g1]. cbn [fst snd] in *.
  rewrite HT, HX. apply good_loop. split; [reflexivity|].
  intros i Hi. rewrite decide_False by lia. reflexivity.
Qed.

End SessionProperties.

(** ** How the calls compose *)

Lemma be_value_app (a b : bytes) :
  be_value (a ++ b) = (be_value a * 256 ^ Z.of_nat (length b) + be_value b)%Z.
Proof.
  induction b as [|x b IH] using rev_ind.
  - rewrite app_nil_r. simpl. unfold be_value at 3. simpl. lia.
  - rewrite app_assoc, !be_value_snoc, IH, length_app. simpl length.
    replace (Z.of_nat (length b + 1)) with (Z.succ (Z.of_nat (length b))) by lia.
    rewrite Z.pow_succ_r by lia. ring.
Qed.

(** Byte strings of one length that denote the same number are equal. *)
Lemma be_value_inj (a b : bytes) :
  length a = length b -> Forall is_byte a -> Forall is_byte b ->
  be_value a = be_value b -> a = b.
Proof.
  revert b. induction a as [|x a IH] using rev_ind; intros b Hl Ha Hb Hv.
  - destruct b; [reflexivity | discriminate].
  - destruct b as [|y b _] using rev_ind.
    { rewrite length_app in Hl. simpl in Hl. lia. }
    rewrite !length_app in Hl. simpl in Hl.
    apply Forall_app in Ha as [Ha Hx]. apply Forall_cons in Hx as [Hx _].
    apply Forall_app in Hb as [Hb Hy]. apply Forall_cons in Hy as [Hy _].
    rewrite !be_value_snoc in Hv. unfold is_byte in Hx, Hy.
    assert (be_value a = be_value b /\ x = y) as [Hv' ->] by lia.
    rewrite (IH b); auto. lia.
Qed.

Lemma increment_loop_length (i : nat) (c : bytes) (carry : Z) :
  length (increment_loop i c carry) = length c.
Proof.
  revert c carry. induction i as [|i IH]; intros c carry; [reflexivity|].
  rewrite increment_loop_S, IH, length_insert. reflexivity.
Qed.

Lemma iter_incr_length (k : nat) (c : bytes) : length (Nat.iter k incr c) = length c.
Proof.
  induction k as [|k IH]; [reflexivity|].
  rewrite Nat.iter_succ. unfold incr at 1. rewrite increment_loop_length. exact IH.
Qed.

Section SessionUse.
Context `{BlockCipher} `{Accumulator}.

(* The lemmas on calls never look inside the counter loop. *)
#[local] Opaque increment_loop.

Implicit Type g : AES_GCM.

Lemma update_loop_length (src dst : bytes) g :
  length (fst (update_loop src dst g)) = length dst + length src.
Proof.
  revert dst g. induction src as [|c src IH]; intros dst g; simpl.
  - lia.
  - rewrite IH, length_app. simpl. lia.
Qed.

Lemma update_loop_cursor (src dst : bytes) g :
  pos g < 16 -> pos (snd (update_loop src dst g)) < 16.
Proof.
  revert dst g. induction src as [|c src IH]; intros dst g Hp; simpl.
  - exact Hp.
  - apply IH. destruct (decide (block_size <= S (pos g))) as [Hc|Hc].
    + simpl. lia.
    + unfold block_size in Hc. simpl. lia.
Qed.

(** Inside the current keystream block the loop XORs with the bytes of that
    block from the cursor on, whatever the cipher object holds. *)
Lemma update_loop_within_block (src dst : bytes) g :
  pos g + length src <= 16 ->
  fst (update_loop src dst g) =
  dst ++ imap (fun j x => Z.lxor x (key_stream g !!! (pos g + j))) src.
Proof.
  revert dst g. induction src as [|c src IH]; intros dst g Hl.
  - simpl. rewrite app_nil_r. reflexivity.
  - cbn [update_loop length] in *. rewrite imap_cons, Nat.add_0_r.
    change (pos (with_pos (S (pos g)) g)) with (S (pos g)).
    destruct (decide (block_size <= S (pos g))) as [Hc|Hc].
    + unfold block_size in Hc. destruct src as [|c' src]; [|simpl in Hl; lia].
      reflexivity.
    + rewrite IH by (simpl; lia). rewrite <- app_assoc. simpl. do 2 f_equal.
      apply imap_ext. intros j y _. simpl. do 2 f_equal. lia.
Qed.

Lemma update_range_keeps (str : bytes) (s e : nat) g :
  state (snd (update_range str s e g)) = state g /\
  (pos g < 16 -> pos (snd (update_range str s e g)) < 16).
Proof.
  unfold update_range.
  destruct (decide (ENCRYPT <> state g /\ DECRYPT <> state g)); [split; auto|].
  destruct (decide (e <= s)); [split; auto|].
  set (src := take (e - s) (drop s str)).
  set (g1 := if decide (DECRYPT = state g) then with_ghash (ghash_add src (ghash g)) g else g).
  assert (Hs1 : state g1 = state g) by (unfold g1; destruct (decide _); reflexivity).
  assert (Hp1 : pos g1 = pos g) by (unfold g1; destruct (decide _); reflexivity).
  destruct (update_loop_keeps src [] g1) as (K1 & _).
  pose proof (update_loop_cursor src [] g1) as K2.
  destruct (update_loop src [] g1) as [dst g2]. cbn [fst snd] in *.
  split.
  - destruct (decide (ENCRYPT = state g2)); cbn; congruence.
  - intros Hp. rewrite Hp1 in K2. specialize (K2 Hp).
    destruct (decide (ENCRYPT = state g2)); exact K2.
Qed.

Lemma authtag_keeps_cursor g : pos (snd (authtag g)) = pos g.
Proof.
  unfold authtag. destruct (decide _); [|reflexivity].
  destruct (ghash_digest (ghash g)); reflexivity.
Qed.

Lemma good_session g : snd (good g) = snd (authtag g).
Proof. unfold good. destruct (authtag g); reflexivity. Qed.

Lemma authtag_next_state g :
  state (snd (authtag g)) = next_state Authtag (state g).
Proof.
  unfold authtag. destruct (decide _) as [Ha|Hn].
  - destruct (ghash_digest (ghash g)). cbn. destruct Ha as [-> | ->]; reflexivity.
  - cbn. destruct (state g); try reflexivity; exfalso; apply Hn; auto.
Qed.

Lemma call_on_state (c : call) g : state (call_on c g) = next_state c (state g).
Proof.
  destruct c; cbn [call_on]; try reflexivity.
  - unfold update. apply update_range_keeps.
  - apply update_range_keeps.
  - apply authtag_next_state.
  - rewrite good_session. apply authtag_next_state.
Qed.

Lemma call_on_cursor (c : call) g : pos g < 16 -> pos (call_on c g) < 16.
Proof.
  intros Hp. destruct c; cbn [call_on]; try exact Hp.
  - cbn. lia.
  - destruct (entry_keeps_cursor g) as [-> _]. exact Hp.
  - destruct (entry_keeps_cursor g) as [_ ->]. exact Hp.
  - unfold update. apply update_range_keeps. exact Hp.
  - apply update_range_keeps. exact Hp.
  - rewrite authtag_keeps_cursor. exact Hp.
  - rewrite good_session, authtag_keeps_cursor. exact Hp.
Qed.

Lemma run_snoc (cs : list call) (c : call) g :
  run (cs ++ [c]) g = call_on c (run cs g).
Proof. unfold run. rewrite fold_left_app. reflexivity. Qed.

Lemma update_active_ok (src : bytes) g :
  active g -> fst (update src g) = Ok (fst (update_loop src [] g)).
Proof. intros Ha. rewrite update_active_all by exact Ha. reflexivity. Qed.

(** X2. The session follows the state machine of [next_state] under every
    sequence of calls, from every session: [encrypt] and [decrypt] are taken
    in every state (also in FINAL and in the middle of a message), and
    [update] returns bytes exactly when the machine is in ENCRYPT or
    DECRYPT and throws in INIT and FINAL. *)
Theorem session_follows_state_machine (cs : list call) g (src : bytes) :
  state (run cs g) = fold_left (fun s c => next_state c s) cs (state g) /\
  match fold_left (fun s c => next_state c s) cs (state g) with
  | ENCRYPT | DECRYPT => exists out, fst (update src (run cs g)) = Ok out
  | INIT | FINAL =>
      fst (update src (run cs g)) =
      Throw (runtime_error "update() decends encrypt() or decrypt().")
  end.
Proof.
  assert (Hst : state (run cs g) = fold_left (fun s c => next_state c s) cs (state g)).
  { induction cs as [|c cs IH] using rev_ind; [reflexivity|].
    rewrite run_snoc, fold_left_app, call_on_state, IH. reflexivity. }
  split; [exact Hst|]. rewrite <- Hst.
  destruct (state (run cs g)) eqn:E.
  - unfold update. rewrite update_range_inactive by (rewrite E; discriminate). reflexivity.
  - eexists. apply update_active_ok. left. exact E.
  - eexists. apply update_active_ok. right. exact E.
  - unfold update. rewrite update_range_inactive by (rewrite E; discriminate). reflexivity.
Qed.

Lemma run_keeps_cursor (cs : list call) g : pos g < 16 -> pos (run cs g) < 16.
Proof.
  intros Hp. induction cs as [|c cs IH] using rev_ind; [exact Hp|].
  rewrite run_snoc. apply call_on_cursor. exact IH.
Qed.

(** X3. On every object, whatever calls were made since its construction, the
    cursor stays below 16: [key_stream[pos]] in [update] never reads outside
    the keystream block. *)
Theorem cursor_stays_in_block (cs : list call) (c0 k0 k : BLOCK) :
  pos (run cs (AES_GCM_new c0 k0 k)) < 16.
Proof. apply run_keeps_cursor. cbn. lia. Qed.

(** X8. Inside a message [update] returns as many bytes as it is given, and
    [update (s, e)] on a range inside the string returns [e - s] bytes. *)
Theorem update_keeps_length (str : bytes) (s e : nat) g :
  active g -> e <= length str ->
  (exists out, fst (update str g) = Ok out /\ length out = length str) /\
  (exists out, fst (update_range str s e g) = Ok out /\ length out = e - s).
Proof.
  intros Ha He. split.
  - eexists. split; [apply update_active_ok; exact Ha|].
    rewrite update_loop_length. reflexivity.
  - unfold update_range.
    rewrite decide_False by (destruct Ha as [E|E]; rewrite E; intros [? ?]; congruence).
    destruct (decide (e <= s)) as [Hse|Hse].
    + exists []. split; [reflexivity | simpl; lia].
    + set (src := take (e - s) (drop s str)).
      set (g1 := if decide (DECRYPT = state g)
                 then with_ghash (ghash_add src (ghash g)) g else g).
      pose proof (update_loop_length src [] g1) as Hl.
      destruct (update_loop src [] g1) as [dst g2]. cbn [fst snd] in *.
      exists dst. split; [reflexivity|].
      rewrite Hl. unfold src. rewrite length_take, length_drop. simpl. lia.
Qed.

Lemma increment_counter_eq g :
  increment_counter g =
  with_key_stream (aes_encrypt (aes g) (incr (counter g)))
                  (with_counter (incr (counter g)) g).
Proof. reflexivity. Qed.

Lemma update_loop_with_state (st : State) (src dst : bytes) g :
  update_loop src dst (with_state st g) =
  (fst (update_loop src dst g), with_state st (snd (update_loop src dst g))).
Proof.
  apply (update_loop_frame (with_state st));
    [reflexivity | reflexivity | reflexivity |].
  intros g0. rewrite !increment_counter_eq. reflexivity.
Qed.

(** X7. [update] turns the same bytes into the same bytes after [encrypt] and
    after [decrypt]; the direction only chooses what is folded into the
    accumulator, and in both directions that is the ciphertext: what
    [update] returns when encrypting, what it is given when decrypting. *)
Theorem update_direction_only_chooses_the_fold (src : bytes) g :
  src <> [] ->
  fst (update src (decrypt g)) = fst (update src (encrypt g)) /\
  (exists out, fst (update src (encrypt g)) = Ok out /\
     ghash (snd (update src (encrypt g))) = ghash_add out (ghash (encrypt g))) /\
  ghash (snd (update src (decrypt g))) = ghash_add src (ghash (encrypt g)).
Proof.
  intros Hne. rewrite decrypt_fields.
  assert (Hst : state (encrypt g) = ENCRYPT) by (rewrite encrypt_fields; reflexivity).
  set (E0 := encrypt g) in *. clearbody E0.
  assert (Ha : active E0) by (left; exact Hst).
  assert (Hd : active (with_state DECRYPT E0)) by (right; reflexivity).
  rewrite (update_active_all src E0 Ha), (update_active_all src _ Hd).
  rewrite update_loop_with_state. cbn [fst snd].
  rewrite !(decide_False (P := src = [])) by exact Hne.
  change (state (with_state DECRYPT E0)) with DECRYPT. rewrite Hst.
  rewrite (decide_True (P := DECRYPT = DECRYPT)) by reflexivity.
  rewrite (decide_False (P := DECRYPT = ENCRYPT)) by discriminate.
  split; [reflexivity|]. split; [|reflexivity].
  eexists. split; reflexivity.
Qed.

Lemma authtag_frame (f : AES_GCM -> AES_GCM) :
  (forall g, state (f g) = state g) -> (forall g, ghash (f g) = ghash g) ->
  (forall g, key_stream0 (f g) = key_stream0 g) -> (forall g, tag (f g) = tag g) ->
  (forall g v, with_ghash v (f g) = f (with_ghash v g)) ->
  (forall g v, with_tag v (f g) = f (with_tag v g)) ->
  (forall g v, with_state v (f g) = f (with_state v g)) ->
  forall g, authtag (f g) = (fst (authtag g), f (snd (authtag g))).
Proof.
  intros Hs Hg Hk Ht Cg Ct Cs g. unfold authtag. rewrite Hs, Hg.
  destruct (decide _); [|cbn; rewrite Ht; reflexivity].
  destruct (ghash_digest (ghash g)) as [d gh]. cbn zeta.
  rewrite Cg, Ct. rewrite !Ht, !Hk. cbn [fst snd].
  rewrite Ct, Cs, Ht. reflexivity.
Qed.

Lemma update_frame (f : AES_GCM -> AES_GCM) :
  (forall g, state (f g) = state g) -> (forall g, ghash (f g) = ghash g) ->
  (forall g, key_stream (f g) = key_stream g) -> (forall g, pos (f g) = pos g) ->
  (forall g p, with_pos p (f g) = f (with_pos p g)) ->
  (forall g, increment_counter (f g) = f (increment_counter g)) ->
  (forall g v, with_ghash v (f g) = f (with_ghash v g)) ->
  forall (src : bytes) g,
    update src (f g) = (fst (update src g), f (snd (update src g))).
Proof.
  intros Hs Hg Hk Hp Cp Ci Cg src g.
  destruct (decide (active g)) as [Ha|Hn].
  - assert (Ha' : active (f g)) by (unfold active; rewrite Hs; exact Ha).
    rewrite (update_active_all src g Ha), (update_active_all src (f g) Ha').
    rewrite (update_loop_frame f Hk Hp Cp Ci). cbn [fst snd].
    rewrite Hs, Hg. destruct (decide (src = [])); [reflexivity|].
    rewrite Cg. reflexivity.
  - assert (H1 : state g <> ENCRYPT) by (intros E; apply Hn; left; exact E).
    assert (H2 : state g <> DECRYPT) by (intros E; apply Hn; right; exact E).
    unfold update. rewrite !update_range_inactive by (rewrite ?Hs; assumption).
    reflexivity.
Qed.

(** X6. Associated data and a nonce set after [encrypt] or [decrypt] have no
    effect on the message in progress: [update] returns the same bytes and
    [authtag] the same tag as without them, so associated data given after
    the entry is not authenticated. *)
Theorem inputs_set_after_entry_are_ignored (a n src : bytes) g :
  fst (update src (add_authdata a (set_nonce n g))) = fst (update src g) /\
  fst (authtag (snd (update src (add_authdata a (set_nonce n g))))) =
    fst (authtag (snd (update src g))) /\
  fst (authtag (add_authdata a (set_nonce n g))) = fst (authtag g).
Proof.
  pose proof (update_frame (fun g => add_authdata a (set_nonce n g))
                (fun _ => eq_refl) (fun _ => eq_refl) (fun _ => eq_refl)
                (fun _ => eq_refl) (fun _ _ => eq_refl) (fun _ => eq_refl)
                (fun _ _ => eq_refl) src g) as U.
  pose proof (authtag_frame (fun g => add_authdata a (set_nonce n g))
                (fun _ => eq_refl) (fun _ => eq_refl) (fun _ => eq_refl)
                (fun _ => eq_refl) (fun _ _ => eq_refl) (fun _ _ => eq_refl)
                (fun _ _ => eq_refl)) as A.
  cbn beta in U, A. rewrite U. cbn [fst snd]. rewrite !A. auto.
Qed.

(** X9. [authtag] computes the tag once for a message: a second call returns the
    same string and changes nothing, and so does a second [good] while the
    expected tag stays the same. *)
Theorem authtag_is_cached g :
  authtag (snd (authtag g)) = (fst (authtag g), snd (authtag g)) /\
  good (snd (good g)) = good g.
Proof.
  assert (Hi : authtag (snd (authtag g)) = (fst (authtag g), snd (authtag g))).
  { rewrite authtag_fst_tag. apply authtag_inactive.
    intros [E|E]; destruct (authtag_state g) as [H1 H2]; contradiction. }
  split; [exact Hi|].
  rewrite good_session. unfold good at 1. rewrite Hi.
  unfold good. destruct (authtag g) as [t g1]. reflexivity.
Qed.

(** X11. Outside a message, a session that holds no computed tag (a new session,
    or one cleared before any tag was taken) answers [true] to [good]
    whatever expected tag is set: the comparison loop runs over no byte. *)
Theorem good_without_tag_accepts (e : bytes) g :
  ~ active g -> tag g = [] ->
  good (set_authtag e g) = (true, set_authtag e g).
Proof.
  intros Hn Ht. unfold good.
  rewrite (authtag_inactive (set_authtag e g)) by exact Hn.
  change (tag (set_authtag e g)) with (tag g). rewrite Ht. reflexivity.
Qed.

(** X10. [good] accepts the tag [authtag] computes, and it accepts it with any
    bytes appended: it compares as many bytes as the computed tag has and
    never looks at the rest of the expected tag. *)
Theorem good_accepts_computed_tag (extra : bytes) g :
  fst (good (set_authtag (fst (authtag g) ++ extra) g)) = true.
Proof.
  pose proof (authtag_frame (set_authtag (fst (authtag g) ++ extra))
                (fun _ => eq_refl) (fun _ => eq_refl) (fun _ => eq_refl)
                (fun _ => eq_refl) (fun _ _ => eq_refl) (fun _ _ => eq_refl)
                (fun _ _ => eq_refl) g) as A.
  unfold good. rewrite A. cbn [fst snd].
  change (tag (set_authtag ?e ?x)) with (tag x).
  change (expected_tag (set_authtag ?e ?x)) with e.
  rewrite <- authtag_fst_tag. apply good_loop. split; [reflexivity|].
  intros i Hi. rewrite length_app, decide_False by lia.
  rewrite lookup_total_app_l by lia. reflexivity.
Qed.

(** X12. A key set in the middle of a message neither ends nor restarts it: the
    state, the cursor, the counter and the keystream block stay, so the
    bytes up to the end of the current keystream block are still XORed with
    the block made under the old key. *)
Theorem set_key_keeps_message (c : call) (key src : bytes) g :
  c = SetKey128 key \/ c = SetKey192 key \/ c = SetKey256 key ->
  active g -> pos g + length src <= 16 ->
  state (call_on c g) = state g /\ pos (call_on c g) = pos g /\
  counter (call_on c g) = counter g /\ key_stream (call_on c g) = key_stream g /\
  fst (update src (call_on c g)) = fst (update src g) /\
  fst (update src g) =
    Ok (imap (fun j x => Z.lxor x (key_stream g !!! (pos g + j))) src).
Proof.
  intros Hc Ha Hl.
  assert (F : state (call_on c g) = state g /\ pos (call_on c g) = pos g /\
              counter (call_on c g) = counter g /\
              key_stream (call_on c g) = key_stream g)
    by (destruct Hc as [-> | [-> | ->]]; repeat split).
  destruct F as (Fs & Fp & Fc & Fk).
  assert (Ha' : active (call_on c g)) by (unfold active; rewrite Fs; exact Ha).
  rewrite (update_active_ok src g Ha), (update_active_ok src _ Ha').
  rewrite !update_loop_within_block by (rewrite ?Fp; exact Hl).
  rewrite Fk, Fp. repeat split; assumption.
Qed.

(** X14. The counter increment is the 32-bit increment of the mode as long as the
    last four bytes are not all 0xFF: the first twelve bytes stay and the
    last four count up by one.  From four bytes 0xFF the carry goes on into
    the first twelve bytes: the last four become 0 and the first twelve
    count up by one modulo 2^96. *)
Theorem increment_counter_low_word g :
  is_block (counter g) ->
  let c := counter g in
  let c' := counter (increment_counter g) in
  ((be_value (drop 12 c) < 2 ^ 32 - 1)%Z ->
   take 12 c' = take 12 c /\ be_value (drop 12 c') = (be_value (drop 12 c) + 1)%Z) /\
  (be_value (drop 12 c) = (2 ^ 32 - 1)%Z ->
   be_value (take 12 c') = ((be_value (take 12 c) + 1) mod 2 ^ 96)%Z /\
   be_value (drop 12 c') = 0%Z).
Proof.
  intros Hb c c'. destruct (increment_block _ Hb) as [Hb' Hv].
  change (increment_loop block_size (counter g) 1) with c' in Hb', Hv.
  fold c in Hb, Hv. clearbody c c'.
  destruct Hb as [Hl Hby]. destruct Hb' as [Hl' Hby']. unfold block_size in *.
  assert (S : forall x : bytes, length x = 16 -> Forall is_byte x ->
    be_value x = (be_value (take 12 x) * 2 ^ 32 + be_value (drop 12 x))%Z /\
    (0 <= be_value (take 12 x) < 2 ^ 96)%Z /\ (0 <= be_value (drop 12 x) < 2 ^ 32)%Z /\
    length (take 12 x) = 12 /\ Forall is_byte (take 12 x)).
  { intros x Hx Hxb.
    pose proof (be_value_app (take 12 x) (drop 12 x)) as E.
    rewrite take_drop in E.
    pose proof (be_value_bound (take 12 x) ltac:(apply Forall_take; exact Hxb)) as B1.
    pose proof (be_value_bound (drop 12 x) ltac:(apply Forall_drop; exact Hxb)) as B2.
    rewrite length_take, Hx in B1. rewrite length_drop, Hx in B2, E.
    repeat split; try (apply E || apply B1 || apply B2).
    - rewrite length_take, Hx. reflexivity.
    - apply Forall_take. exact Hxb. }
  destruct (S c Hl Hby) as (E1 & B1 & B2 & L1 & F1).
  destruct (S c' Hl' Hby') as (E2 & B3 & B4 & L2 & F2).
  set (h := be_value (take 12 c)) in *. set (l := be_value (drop 12 c)) in *.
  set (h' := be_value (take 12 c')) in *. set (l' := be_value (drop 12 c')) in *.
  rewrite E1, E2 in Hv.
  change (2 ^ 32)%Z with 4294967296%Z in *.
  change (2 ^ 96)%Z with 79228162514264337593543950336%Z in *.
  change (2 ^ 128)%Z with (79228162514264337593543950336 * 4294967296)%Z in Hv.
  split.
  - intros Hlow. rewrite Z.mod_small in Hv by lia.
    assert (h' = h /\ l' = l + 1)%Z as [Hh Hl2] by lia.
    split; [|exact Hl2].
    apply be_value_inj; [congruence | assumption | assumption | exact Hh].
  - intros Hlow.
    replace (h * 4294967296 + l + 1)%Z with ((h + 1) * 4294967296)%Z in Hv by lia.
    rewrite Z.mul_mod_distr_r in Hv by lia.
    pose proof (Z.mod_pos_bound (h + 1) 79228162514264337593543950336 ltac:(lia)) as Bm.
    set (m := ((h + 1) mod 79228162514264337593543950336)%Z) in *.
    lia.
Qed.

(** *** One object for both directions *)

Lemma same_key_trans (g1 g2 g3 : GHASH) :
  same_key g1 g2 -> same_key g2 g3 -> same_key g1 g3.
Proof. intros H12 H23 a. rewrite H12. apply H23. Qed.

Lemma entry_keeps_key g : key_survives -> same_key (ghash (encrypt g)) (ghash g).
Proof.
  intros Hk. rewrite encrypt_fields. cbn [ghash].
  eapply same_key_trans; [apply Hk; exact []|].
  rewrite derive_j0_ghash. destruct (decide _); [intros a; reflexivity|].
  eapply same_key_trans; [apply Hk; exact []|].
  eapply same_key_trans; [apply Hk; exact []|].
  apply Hk; exact [].
Qed.

Lemma update_keeps_key (src : bytes) g :
  key_survives -> same_key (ghash (snd (update src g))) (ghash g).
Proof.
  intros Hk. destruct (decide (active g)) as [Ha|Hn].
  - rewrite update_active_all by exact Ha. cbn [snd].
    destruct (decide (src = [])); [intros a; reflexivity|].
    destruct (update_loop_keeps src [] g) as (_ & K2 & _).
    change (ghash (with_ghash ?v ?x)) with v.
    apply Hk; exact [].
  - assert (H1 : state g <> ENCRYPT) by (intros E; apply Hn; left; exact E).
    assert (H2 : state g <> DECRYPT) by (intros E; apply Hn; right; exact E).
    unfold update. rewrite update_range_inactive by assumption. intros a; reflexivity.
Qed.

Lemma authtag_keeps_key g :
  key_survives -> same_key (ghash (snd (authtag g))) (ghash g).
Proof.
  intros Hk. unfold authtag. destruct (decide _); [|intros a; reflexivity].
  pose proof (Hk (ghash g) [] []) as (_ & _ & K).
  destruct (ghash_digest (ghash g)) as [d gh]. exact K.
Qed.

Lemma authtag_keeps_fields g :
  aes (snd (authtag g)) = aes g /\ counter (snd (authtag g)) = counter g /\
  nonce (snd (authtag g)) = nonce g /\ authdata (snd (authtag g)) = authdata g.
Proof.
  unfold authtag. destruct (decide _); [|repeat split].
  destruct (ghash_digest (ghash g)); repeat split.
Qed.

Lemma J0_of_nonce_length g :
  digest_is_block -> length (counter g) = 16 -> length (J0_of_nonce g) = 16.
Proof.
  intros Hd Hc. unfold J0_of_nonce. destruct (decide _) as [E|E].
  - rewrite length_app, E. reflexivity.
  - apply Hd.
Qed.

(** After the entries, a decrypting session that agrees with the encrypting
    one on the cipher, the counter, the cursor, the two keystream blocks and
    the accumulator gives the plaintext back and accepts the tag. *)
Lemma roundtrip_after_entry (E0 D0 : AES_GCM) (P : bytes) :
  state E0 = ENCRYPT -> state D0 = DECRYPT -> stream_ok E0 ->
  aes D0 = aes E0 -> counter D0 = counter E0 -> pos D0 = pos E0 ->
  key_stream D0 = key_stream E0 -> key_stream0 D0 = key_stream0 E0 ->
  ghash D0 = ghash E0 ->
  expected_tag D0 = fst (authtag (snd (update P E0))) ->
  exists C, fst (update P E0) = Ok C /\
    fst (update C D0) = Ok P /\ fst (good (snd (update C D0))) = true.
Proof.
  intros Est Dst Es Da Dc Dp Dks Dk Dg Dx.
  assert (Eact : active E0) by (left; exact Est).
  assert (Dact : active D0) by (right; exact Dst).
  assert (Ds : stream_ok D0).
  { destruct Es as [E1 E2]. split; [rewrite Dp; exact E1|].
    rewrite Dks, Da, Dc. exact E2. }
  set (C := xor_keystream (aes E0) (counter E0) (pos E0) P).
  destruct (update_closed P E0 Eact Es) as (U1 & _ & _ & _ & U5 & _ & U7 & _).
  fold C in U1. exists C. split; [exact U1|].
  destruct (update_closed C D0 Dact Ds) as (V1 & _ & _ & _ & V5 & _ & V7 & V8).
  rewrite Da, Dc, Dp in V1. unfold C in V1 at 2.
  rewrite xor_keystream_involutive in V1. split; [exact V1|].
  assert (HgE : ghash (snd (update P E0)) = ghash (snd (update C D0))).
  { rewrite (update_active_all P E0 Eact), (update_active_all C D0 Dact).
    assert (HC : fst (update_loop P [] E0) = C).
    { destruct (update_loop_closed P [] E0 Es) as [L _]. rewrite L. reflexivity. }
    cbn [snd]. destruct (decide (P = [])) as [-> | HP].
    - rewrite decide_True by reflexivity. symmetry. exact Dg.
    - assert (HCne : C <> []).
      { intros EC. apply HP. apply nil_length_inv.
        rewrite <- (xor_keystream_length (aes E0) (counter E0) (pos E0) P).
        fold C. rewrite EC. reflexivity. }
      rewrite (decide_False (P := C = [])) by exact HCne.
      change (ghash (with_ghash ?v ?x)) with v.
      rewrite Est, Dst, HC, Dg.
      rewrite decide_False by discriminate. rewrite decide_True by reflexivity.
      reflexivity. }
  assert (HT : fst (authtag (snd (update C D0))) = fst (authtag (snd (update P E0)))).
  { rewrite (authtag_active _ V5), (authtag_active _ U5).
    rewrite <- HgE, V7, U7, Dk. reflexivity. }
  unfold good. rewrite authtag_fst_tag in HT.
  assert (HX : expected_tag (snd (authtag (snd (update C D0)))) =
               fst (authtag (snd (update P E0)))).
  { rewrite <- Dx, <- V8. unfold authtag. destruct (decide _); [|reflexivity].
    destruct (ghash_digest _); reflexivity. }
  destruct (authtag (snd (update C D0))) as [t g1]. cbn [fst snd] in *.
  rewrite HT, HX. apply good_loop. split; [reflexivity|].
  intros i Hi. rewrite decide_False by lia. reflexivity.
Qed.

(** X4. One object serves both directions when [clear] is called in between and
    the nonce and the associated data are set again: starting at cursor 0
    (a new or cleared object), [encrypt (); update (P); authtag (); clear ();
    add_authdata (A); set_nonce (N); set_authtag (T); decrypt (); update (C);
    good ()] gives [P] back and [good] answers [true]. *)
Theorem roundtrip_on_one_object_after_clear (e : AES_GCM) (P : bytes) :
  digest_is_block -> key_survives -> pos e = 0 -> length (counter e) = 16 ->
  let rc := update P (encrypt e) in
  let T := fst (authtag (snd rc)) in
  let d := set_authtag T (set_nonce (nonce e) (add_authdata (authdata e)
             (clear (snd (authtag (snd rc)))))) in
  exists C, fst rc = Ok C /\
    fst (update C (decrypt d)) = Ok P /\
    fst (good (snd (update C (decrypt d)))) = true.
Proof.
  intros Hd Hk Hp Hc rc T d.
  pose proof (derive_j0_counter e Hd Hc) as Je.
  assert (FE : state (encrypt e) = ENCRYPT /\ aes (encrypt e) = aes e /\
               counter (encrypt e) = incr (J0_of_nonce e) /\ pos (encrypt e) = 0 /\
               key_stream (encrypt e) = aes_encrypt (aes e) (incr (J0_of_nonce e)) /\
               key_stream0 (encrypt e) = aes_encrypt (aes e) (J0_of_nonce e) /\
               ghash (encrypt e) = ghash_set_authdata (authdata e) (ghash (derive_j0 e))).
  { rewrite encrypt_fields, Je. cbn. repeat split; auto. }
  destruct FE as (Est & Ea & Ec & Ep & Eks & Ek & Eg).
  assert (Es : stream_ok (encrypt e)).
  { split; [rewrite Ep; lia | rewrite Eks, Ea, Ec; reflexivity]. }
  assert (Eact : active (encrypt e)) by (left; exact Est).
  destruct (update_closed P (encrypt e) Eact Es) as (_ & U2 & _ & _ & U5 & U6 & _).
  fold rc in U2, U5, U6.
  destruct (authtag_keeps_fields (snd rc)) as (A1 & A2 & _ & _).
  (* the object after the first message, cleared and configured again *)
  assert (Fd : aes d = aes e /\ nonce d = nonce e /\ authdata d = authdata e /\
               pos d = 0 /\ expected_tag d = T /\ length (counter d) = 16 /\
               same_key (ghash d) (ghash e)).
  { unfold d. cbn. rewrite A1, A2, U6, Ea, U2, Ec.
    repeat split; auto.
    - unfold counter_after. rewrite iter_incr_length. unfold incr.
      rewrite increment_loop_length. apply J0_of_nonce_length; assumption.
    - eapply same_key_trans; [apply authtag_keeps_key; exact Hk|].
      eapply same_key_trans; [apply update_keeps_key; exact Hk|].
      apply entry_keeps_key. exact Hk. }
  destruct Fd as (Da & Dn & Dad & Dp & Dx & Dlen & SK).
  assert (HJ : J0_of_nonce d = J0_of_nonce e).
  { unfold J0_of_nonce. rewrite Dn, (SK []). reflexivity. }
  pose proof (derive_j0_counter d Hd Dlen) as Jd. rewrite HJ in Jd.
  assert (HG : ghash_set_authdata (authdata d) (ghash (derive_j0 d)) =
               ghash_set_authdata (authdata e) (ghash (derive_j0 e))).
  { rewrite !derive_j0_ghash, Dn, Dad, (SK []).
    destruct (decide _); [apply SK | reflexivity]. }
  clearbody d.
  assert (FD : state (decrypt d) = DECRYPT /\ aes (decrypt d) = aes d /\
               counter (decrypt d) = incr (J0_of_nonce e) /\ pos (decrypt d) = pos d /\
               key_stream (decrypt d) = aes_encrypt (aes d) (incr (J0_of_nonce e)) /\
               key_stream0 (decrypt d) = aes_encrypt (aes d) (J0_of_nonce e) /\
               ghash (decrypt d) = ghash_set_authdata (authdata d) (ghash (derive_j0 d)) /\
               expected_tag (decrypt d) = expected_tag d)
    by (rewrite decrypt_fields, encrypt_fields, Jd; repeat split).
  destruct FD as (D1 & D2 & D3 & D4 & D5 & D6 & D7 & D8).
  subst T rc. apply roundtrip_after_entry; first [exact Es | congruence].
Qed.

(** *** Keys and associated data *)

Lemma update_range_keys (str : bytes) (s e : nat) g :
  aes (snd (update_range str s e g)) = aes g /\
  (key_survives -> same_key (ghash (snd (update_range str s e g))) (ghash g)).
Proof.
  unfold update_range.
  destruct (decide (ENCRYPT <> state g /\ DECRYPT <> state g));
    [split; [reflexivity | intros _ ?; reflexivity]|].
  destruct (decide (e <= s)); [split; [reflexivity | intros _ ?; reflexivity]|].
  set (src := take (e - s) (drop s str)).
  set (g1 := if decide (DECRYPT = state g) then with_ghash (ghash_add src (ghash g)) g else g).
  assert (Ha1 : aes g1 = aes g) by (unfold g1; destruct (decide _); reflexivity).
  assert (Hk1 : key_survives -> same_key (ghash g1) (ghash g)).
  { intros Hk. unfold g1. destruct (decide _); [|intros ?; reflexivity].
    change (ghash (with_ghash ?v ?x)) with v. apply Hk; exact []. }
  destruct (update_loop_keeps src [] g1) as (_ & K2 & K3 & _).
  destruct (update_loop src [] g1) as [dst g2]. cbn [fst snd] in *.
  split.
  - destruct (decide (ENCRYPT = state g2)); cbn; congruence.
  - intros Hk. destruct (decide (ENCRYPT = state g2)).
    + change (ghash (with_ghash ?v ?x)) with v.
      eapply same_key_trans; [apply Hk; exact []|]. rewrite K2. apply Hk1, Hk.
    + rewrite K2. apply Hk1, Hk.
Qed.

Lemma call_on_keys (c : call) g :
  is_set_key c = false ->
  aes (call_on c g) = aes g /\
  (key_survives -> same_key (ghash (call_on c g)) (ghash g)).
Proof.
  intros Hc. destruct c; try discriminate; cbn [call_on].
  - split; [reflexivity | intros _ ?; reflexivity].
  - split; [reflexivity | intros _ ?; reflexivity].
  - split; [reflexivity | intros _ ?; reflexivity].
  - split; [reflexivity | intros _ ?; reflexivity].
  - split; [rewrite encrypt_fields; reflexivity | apply entry_keeps_key].
  - split; [rewrite decrypt_fields, encrypt_fields; reflexivity|].
    intros Hk. rewrite decrypt_fields.
    change (ghash (with_state ?v ?x)) with (ghash x). apply entry_keeps_key, Hk.
  - apply update_range_keys.
  - apply update_range_keys.
  - split; [apply authtag_keeps_fields | apply authtag_keeps_key].
  - rewrite good_session.
    split; [apply authtag_keeps_fields | apply authtag_keeps_key].
Qed.

(** X13. The keys are set once for many messages: under every sequence of calls
    with no [set_key128], [set_key192] or [set_key256] in it the cipher
    object stays as it is and the accumulator keeps its key. *)
Theorem only_set_key_changes_the_keys (cs : list call) g :
  key_survives -> Forall (fun c => is_set_key c = false) cs ->
  aes (run cs g) = aes g /\ same_key (ghash (run cs g)) (ghash g).
Proof.
  intros Hk Hcs. induction cs as [|c cs IH] using rev_ind.
  - split; [reflexivity | intros ?; reflexivity].
  - apply Forall_app in Hcs as [Hcs Hc]. apply Forall_cons in Hc as [Hc _].
    destruct (IH Hcs) as [IH1 IH2]. rewrite run_snoc.
    destruct (call_on_keys c (run cs g) Hc) as [C1 C2].
    split; [congruence|]. eapply same_key_trans; [apply C2, Hk | exact IH2].
Qed.

Lemma derive_j0_with_authdata (a : bytes) g :
  derive_j0 (with_authdata a g) = with_authdata a (derive_j0 g).
Proof.
  unfold derive_j0. change (nonce (with_authdata a g)) with (nonce g).
  destruct (decide _); [reflexivity|].
  cbn zeta. change (ghash (with_authdata a g)) with (ghash g).
  change (nonce (with_ghash ?v ?x)) with (nonce x).
  change (nonce (with_authdata a g)) with (nonce g).
  change (ghash (with_ghash ?v ?x)) with v.
  destruct (ghash_digest _); reflexivity.
Qed.

(** The bytes the loop produces depend on the cipher object, the counter,
    the keystream block and the cursor alone. *)
Lemma update_loop_same_stream (src dst : bytes) (g1 g2 : AES_GCM) :
  aes g1 = aes g2 -> counter g1 = counter g2 -> key_stream g1 = key_stream g2 ->
  pos g1 = pos g2 ->
  fst (update_loop src dst g1) = fst (update_loop src dst g2).
Proof.
  revert dst g1 g2. induction src as [|c src IH]; intros dst g1 g2 Ha Hc Hk Hp.
  - reflexivity.
  - cbn [update_loop]. rewrite Hk, Hp.
    change (pos (with_pos ?p ?x)) with p.
    destruct (decide (block_size <= S (pos g2))).
    + apply IH; try reflexivity; rewrite !increment_counter_eq; cbn; congruence.
    + apply IH; cbn; congruence.
Qed.

(** X5. Associated data is authenticated and never encrypted: the bytes [update]
    returns after [encrypt] or [decrypt] are the same whatever associated
    data was set before the entry. *)
Theorem associated_data_is_not_encrypted (a src : bytes) g :
  fst (update src (encrypt (add_authdata a g))) = fst (update src (encrypt g)) /\
  fst (update src (decrypt (add_authdata a g))) = fst (update src (decrypt g)).
Proof.
  assert (E : aes (encrypt (add_authdata a g)) = aes (encrypt g) /\
              counter (encrypt (add_authdata a g)) = counter (encrypt g) /\
              key_stream (encrypt (add_authdata a g)) = key_stream (encrypt g) /\
              pos (encrypt (add_authdata a g)) = pos (encrypt g) /\
              state (encrypt (add_authdata a g)) = ENCRYPT /\
              state (encrypt g) = ENCRYPT).
  { rewrite !encrypt_fields. unfold add_authdata.
    rewrite derive_j0_with_authdata. repeat split. }
  destruct E as (Ea & Ec & Ek & Ep & Sx & Sy).
  rewrite !decrypt_fields.
  set (x := encrypt (add_authdata a g)) in *. set (y := encrypt g) in *.
  clearbody x y. split.
  - rewrite !update_active_ok by (left; assumption). f_equal.
    apply update_loop_same_stream; assumption.
  - rewrite !update_active_ok by (right; reflexivity). f_equal.
    apply update_loop_same_stream; cbn; assumption.
Qed.

End SessionUse.


(** ** The reference collaborators keep the contracts *)

Lemma to_be_is_bytes (n : nat) (v : Z) :
  length (SP800_38D.to_be n v) = n /\ Forall is_byte (SP800_38D.to_be n v).
Proof.
  revert v. induction n as [|n IH]; intros v; simpl.
  - split; [reflexivity | constructor].
  - destruct (IH (v / 256)%Z) as [IH1 IH2]. split.
    + rewrite length_app, IH1. simpl. lia.
    + apply Forall_app. split; [exact IH2|].
      apply Forall_cons. split; [|constructor].
      unfold is_byte. apply Z.mod_pos_bound. lia.
Qed.

Lemma reference_digest_is_block : @digest_is_block ghash_accumulator.
Proof.
  intros g. unfold is_block. simpl. destruct (to_be_is_bytes 16 (SP800_38D.fold_blocks
    (length (SP800_38D.pad16 (SP800_38D.acc_aad g) ++ SP800_38D.pad16 (SP800_38D.acc_data g)
       ++ SP800_38D.to_be 8 (8 * Z.of_nat (length (SP800_38D.acc_aad g)))
       ++ SP800_38D.to_be 8 (8 * Z.of_nat (length (SP800_38D.acc_data g)))) / 16)
    (be_value (SP800_38D.acc_key g)) 0
    (SP800_38D.pad16 (SP800_38D.acc_aad g) ++ SP800_38D.pad16 (SP800_38D.acc_data g)
       ++ SP800_38D.to_be 8 (8 * Z.of_nat (length (SP800_38D.acc_aad g)))
       ++ SP800_38D.to_be 8 (8 * Z.of_nat (length (SP800_38D.acc_data g)))))) as [H1 H2].
  split; assumption.
Qed.

Lemma reference_add_is_streaming : @add_is_streaming ghash_accumulator.
Proof.
  intros a b [k ad d]. simpl. unfold SP800_38D.add. simpl.
  rewrite app_assoc. reflexivity.
Qed.

(** ** Known answers *)

(** Test case 2 of the GCM specification: 12-byte nonce. *)
Example gcm_test_case_2 :
  seal (ready zero_block (replicate 12 0%Z) []) zero_block =
  (Ok (hex "0388dace60b6a392f328c2b971b2fe78"), hex "ab6e47d42cec13bdf53a67b21257bddf").
Proof. vm_compute. reflexivity. Qed.

(** Test case 4: associated data and a last block that is not full. *)
Example gcm_test_case_4 :
  seal (ready tc_key tc_nonce12 tc_aad) tc_plain =
  (Ok (hex "42831ec2217774244b7221b784d0d49ce3aa212f2c02a4e035c17e2329aca12e21d514b25466931c7d8f6a5aac84aa051ba30b396a0aac973d58e091"),
   hex "5bc94fbc3221a5db94fae95ae7121a47").
Proof. vm_compute. reflexivity. Qed.

(** Test case 5: the 8-byte nonce takes the digest path to J0. *)
Example gcm_test_case_5 :
  seal (ready tc_key tc_nonce8 tc_aad) tc_plain =
  (Ok (hex "61353b4c2806934a777ff51fa22a4755699b2a714fcdc6f83766e5f97b6c742373806900e49f24b22b097544d4896b424989b5e1ebac0f07c23f4598"),
   hex "3612d2e79e3b0785561be14aaca2fccb").
Proof. vm_compute. reflexivity. Qed.

(** ** The theorems on concrete sessions *)

(** C1.  On one object, [encrypt (); update (P); authtag (); set_authtag (T);
    decrypt (); update (C); good ()] does not give [P] back when the length
    of [P] is not a multiple of 16: [encrypt] (and so [decrypt]) keeps the
    cursor [pos] of the message before.  With the key and the nonce of test
    case 2, the plaintext of one byte 00 comes back as 8b while [good]
    answers [true]; of the lengths 0, 1, 15, 16, 17, 31 and 32 only 0, 16 and
    32 come back, and all of them come back when the decryption runs on a
    second object whose cursor is where the first one's was (lemmas
    [entry_keeps_cursor] and [roundtrip_same_cursor]). *)
Theorem roundtrip_on_reused_session_loses_plaintext :
  let g := ready zero_block (replicate 12 0%Z) [] in
  pos (decrypt (set_authtag [] (snd (update [0%Z] (encrypt g))))) = 1 /\
  roundtrip_reusing g [0%Z] = (Ok [139%Z], true) /\
  map (fun n => recovered (replicate n 0%Z) (roundtrip_reusing g (replicate n 0%Z)))
      [0; 1; 15; 16; 17; 31; 32] =
    [true; false; false; true; false; false; true] /\
  map (fun n => roundtrip_two_sessions g g (replicate n 0%Z)) [0; 1; 15; 16; 17; 31; 32] =
    map (fun n => (Ok (replicate n 0%Z), true)) [0; 1; 15; 16; 17; 31; 32].
Proof. vm_compute. repeat split. Qed.

Lemma roundtrip_same_cursor_witness :
  let e := ready tc_key tc_nonce8 tc_aad in
  let d := ready tc_key tc_nonce8 tc_aad in
  (aes e = aes d /\ same_key (ghash e) (ghash d) /\ nonce e = nonce d /\
   authdata e = authdata d /\ pos e = pos d /\ pos e < 16 /\
   length (counter e) = 16 /\ length (counter d) = 16) /\
  exists C, fst (update tc_plain (encrypt e)) = Ok C /\
    fst (update C (decrypt (set_authtag
           (fst (authtag (snd (update tc_plain (encrypt e))))) d))) = Ok tc_plain /\
    fst (good (snd (update C (decrypt (set_authtag
           (fst (authtag (snd (update tc_plain (encrypt e))))) d))))) = true.
Proof.
  intros e d.
  assert (Hp : pos e < 16) by (vm_compute; lia).
  split.
  - repeat split; try reflexivity. exact Hp.
  - exact (roundtrip_same_cursor e d tc_plain reference_digest_is_block
             eq_refl (fun a => eq_refl) eq_refl eq_refl eq_refl Hp eq_refl eq_refl).
Defined.

Lemma J0_is_derived_from_nonce_witness :
  let g := ready tc_key tc_nonce8 tc_aad in
  length (counter g) = 16 /\
  counter (derive_j0 g) = J0_of_nonce g /\
  key_stream0 (encrypt g) = aes_encrypt (aes g) (J0_of_nonce g) /\
  counter (decrypt g) = incr (J0_of_nonce g).
Proof.
  intros g.
  pose proof (J0_is_derived_from_nonce g reference_digest_is_block eq_refl)
    as (H1 & _ & _ & H4).
  split; [reflexivity|]. split; [exact H1|]. split.
  - apply (H4 _ (or_introl eq_refl)).
  - apply (H4 _ (or_intror eq_refl)).
Defined.

Lemma chunked_update_is_single_update_witness :
  let g := encrypt (ready tc_key tc_nonce12 tc_aad) in
  let chunks := [take 7 tc_plain; take 20 (drop 7 tc_plain); drop 27 tc_plain] in
  chunks <> [] /\
  update_chunks chunks g = update (concat chunks) g.
Proof.
  intros g chunks.
  assert (Hne : chunks <> []) by discriminate.
  split; [exact Hne|].
  exact (proj1 (chunked_update_is_single_update chunks g reference_add_is_streaming Hne)).
Defined.

Lemma good_compares_sixteen_bytes_witness :
  let g := set_authtag (hex "ab6e47d42cec13bdf53a67b21257bddf") finished in
  length (fst (authtag g)) = 16 /\
  (fst (good g) = true <->
   forall i, i < 16 ->
     fst (authtag g) !!! i =
       (if decide (length (expected_tag g) <= i) then 0%Z else expected_tag g !!! i)).
Proof.
  intros g.
  assert (Hl : length (fst (authtag g)) = 16) by (vm_compute; reflexivity).
  split; [exact Hl|].
  exact (proj1 (good_compares_sixteen_bytes g Hl)).
Defined.

Lemma reserved_mask_only_masks_tag_witness :
  let g := ready tc_key tc_nonce12 tc_aad in
  let chunks := [take 7 tc_plain; drop 7 tc_plain] in
  (length (counter g) = 16 /\ Forall is_byte (nonce g) /\ pos g < 16) /\
  key_stream0 (snd (update_chunks chunks (encrypt g))) =
    aes_encrypt (aes g) (J0_of_nonce g) /\
  update_chunks chunks (with_key_stream0 zero_block (encrypt g)) =
    (fst (update_chunks chunks (encrypt g)),
     with_key_stream0 zero_block (snd (update_chunks chunks (encrypt g)))).
Proof.
  intros g chunks.
  assert (Hn : Forall is_byte (nonce g))
    by (apply (bool_decide_unpack _); vm_compute; exact I).
  assert (Hp : pos g < 16) by (vm_compute; lia).
  pose proof (reserved_mask_only_masks_tag g (encrypt g) chunks zero_block
                reference_digest_is_block eq_refl Hn Hp (or_introl eq_refl))
    as (_ & H2 & H3 & _).
  split; [split; [reflexivity | split; assumption]|]. split; assumption.
Defined.

Lemma update_outside_message_throws_witness :
  let g0 := snd (update zero_block (encrypt (ready zero_block (replicate 12 0%Z) []))) in
  let g := snd (authtag g0) in
  ((state g <> ENCRYPT /\ state g <> DECRYPT) \/ g = clear g0 \/ g = snd (authtag g0)) /\
  update tc_plain g =
    (Throw (runtime_error "update() decends encrypt() or decrypt()."), g).
Proof.
  intros g0 g.
  assert (Hg : (state g <> ENCRYPT /\ state g <> DECRYPT) \/ g = clear g0 \/
               g = snd (authtag g0))
    by (right; right; reflexivity).
  split; [exact Hg|].
  exact (proj2 (update_outside_message_throws g g0 tc_plain 0 0 Hg)).
Defined.

Lemma increment_counter_adds_one_witness :
  let g := with_counter (replicate 16 255%Z) new_session in
  is_block (counter g) /\
  be_value (counter (increment_counter g)) = ((be_value (counter g) + 1) mod 2 ^ 128)%Z /\
  counter (increment_counter g) = replicate 16 0%Z.
Proof.
  intros g.
  assert (Hb : is_block (counter g))
    by (apply (bool_decide_unpack _); vm_compute; exact I).
  pose proof (increment_counter_adds_one g Hb) as (_ & H2 & _ & H4).
  split; [exact Hb|]. split; [exact H2 | exact (H4 eq_refl)].
Defined.



Lemma authtag_in_INIT_returns_stored_tag_witness :
  let g := clear finished in
  state g = INIT /\
  authtag g = (tag g, g) /\
  fst (authtag (clear finished)) = hex "ab6e47d42cec13bdf53a67b21257bddf".
Proof.
  intros g.
  pose proof (authtag_in_INIT_returns_stored_tag g finished
                zero_block zero_block zero_block eq_refl) as (H1 & H2 & _).
  split; [reflexivity|]. split; [exact H1|].
  rewrite H2. vm_compute. reflexivity.
Defined.

(** C8, as stated, fails on the session test case 2 leaves behind: after
    [clear] the session still holds the tag of that message, where a new
    session holds the empty string. *)
Lemma clear_keeps_the_computed_tag :
  tag (clear finished) = hex "ab6e47d42cec13bdf53a67b21257bddf" /\
  tag new_session = [] /\
  tag (clear finished) <> tag new_session.
Proof. vm_compute. repeat split. discriminate. Qed.

(** ** The call properties on concrete sessions *)

Lemma reference_key_survives : @key_survives ghash_accumulator.
Proof. intros [k ad d] a x. repeat split; intros b; reflexivity. Qed.

Lemma update_keeps_length_witness :
  let g := encrypt (ready tc_key tc_nonce12 tc_aad) in
  (active g /\ 10 <= length tc_plain) /\
  (exists out, fst (update tc_plain g) = Ok out /\ length out = length tc_plain) /\
  (exists out, fst (update_range tc_plain 3 10 g) = Ok out /\ length out = 10 - 3).
Proof.
  intros g.
  assert (Ha : active g) by (left; vm_compute; reflexivity).
  assert (He : 10 <= length tc_plain) by (vm_compute; lia).
  split; [split; assumption|].
  exact (update_keeps_length tc_plain 3 10 g Ha He).
Defined.

Lemma update_direction_only_chooses_the_fold_witness :
  let g := ready tc_key tc_nonce8 tc_aad in
  tc_plain <> [] /\
  fst (update tc_plain (decrypt g)) = fst (update tc_plain (encrypt g)) /\
  ghash (snd (update tc_plain (decrypt g))) = ghash_add tc_plain (ghash (encrypt g)).
Proof.
  intros g.
  assert (Hne : tc_plain <> [])
    by (intros E; apply (f_equal length) in E; vm_compute in E; discriminate).
  pose proof (update_direction_only_chooses_the_fold tc_plain g Hne) as (H1 & _ & H3).
  split; [exact Hne|]. split; assumption.
Defined.

Lemma good_without_tag_accepts_witness :
  let g := new_session in
  let e := hex "000102030405060708090a0b0c0d0e0f" in
  (~ active g /\ tag g = []) /\
  good (set_authtag e g) = (true, set_authtag e g).
Proof.
  intros g e.
  assert (Hn : ~ active g) by (intros [E|E]; vm_compute in E; discriminate).
  assert (Ht : tag g = []) by reflexivity.
  split; [split; assumption|].
  exact (good_without_tag_accepts e g Hn Ht).
Defined.

Lemma set_key_keeps_message_witness :
  let g := snd (update (take 5 tc_plain) (encrypt (ready tc_key tc_nonce12 tc_aad))) in
  let c := SetKey256 (zero_block ++ zero_block) in
  let src := take 8 (drop 5 tc_plain) in
  ((c = SetKey128 (zero_block ++ zero_block) \/ c = SetKey192 (zero_block ++ zero_block) \/
    c = SetKey256 (zero_block ++ zero_block)) /\ active g /\ pos g + length src <= 16) /\
  fst (update src (call_on c g)) = fst (update src g).
Proof.
  intros g c src.
  assert (Hc : c = SetKey128 (zero_block ++ zero_block) \/
               c = SetKey192 (zero_block ++ zero_block) \/
               c = SetKey256 (zero_block ++ zero_block)) by (right; right; reflexivity).
  assert (Ha : active g) by (left; vm_compute; reflexivity).
  assert (Hl : pos g + length src <= 16) by (vm_compute; lia).
  pose proof (set_key_keeps_message c (zero_block ++ zero_block) src g Hc Ha Hl)
    as (_ & _ & _ & _ & H5 & _).
  split; [split; [exact Hc | split; assumption]|]. exact H5.
Defined.

Lemma increment_counter_low_word_witness :
  let g := with_counter (tc_nonce12 ++ [0; 0; 0; 1]%Z) new_session in
  let w := with_counter (tc_nonce12 ++ [255; 255; 255; 255]%Z) new_session in
  (is_block (counter g) /\ is_block (counter w)) /\
  take 12 (counter (increment_counter g)) = take 12 (counter g) /\
  be_value (drop 12 (counter (increment_counter w))) = 0%Z /\
  be_value (take 12 (counter (increment_counter w))) =
    ((be_value (take 12 (counter w)) + 1) mod 2 ^ 96)%Z.
Proof.
  intros g w.
  assert (Hg : is_block (counter g))
    by (apply (bool_decide_unpack _); vm_compute; exact I).
  assert (Hw : is_block (counter w))
    by (apply (bool_decide_unpack _); vm_compute; exact I).
  pose proof (increment_counter_low_word g Hg) as [Glow _].
  pose proof (increment_counter_low_word w Hw) as [_ Wtop].
  cbv zeta in Glow, Wtop.
  destruct Glow as [G1 _]; [vm_compute; reflexivity|].
  destruct Wtop as [W1 W2]; [vm_compute; reflexivity|].
  split; [split; assumption|]. split; [exact G1|]. split; assumption.
Defined.

Lemma roundtrip_on_one_object_after_clear_witness :
  let e := ready tc_key tc_nonce8 tc_aad in
  let rc := update tc_plain (encrypt e) in
  let T := fst (authtag (snd rc)) in
  let d := set_authtag T (set_nonce (nonce e) (add_authdata (authdata e)
             (clear (snd (authtag (snd rc)))))) in
  (pos e = 0 /\ length (counter e) = 16) /\
  exists C, fst rc = Ok C /\
    fst (update C (decrypt d)) = Ok tc_plain /\
    fst (good (snd (update C (decrypt d)))) = true.
Proof.
  intros e rc T d.
  split; [split; reflexivity|].
  exact (roundtrip_on_one_object_after_clear e tc_plain reference_digest_is_block
           reference_key_survives eq_refl eq_refl).
Defined.

Lemma only_set_key_changes_the_keys_witness :
  let g := ready tc_key tc_nonce12 tc_aad in
  let cs := [Encrypt; Update tc_plain; Good; Clear; AddAuthdata tc_aad;
             SetNonce tc_nonce8; SetAuthtag zero_block; Decrypt;
             UpdateRange tc_plain 0 16; Authtag] in
  Forall (fun c => is_set_key c = false) cs /\
  aes (run cs g) = aes g /\ same_key (ghash (run cs g)) (ghash g).
Proof.
  intros g cs.
  assert (Hcs : Forall (fun c => is_set_key c = false) cs)
    by (repeat constructor).
  split; [exact Hcs|].
  exact (only_set_key_changes_the_keys cs g reference_key_survives Hcs).
Defined.
